(** * PackBuffer: a shallow embedding of [src/pub/PackBuffer.hpp]

    The development follows the header from the leaves up:

    - machine integers ([size_t], [uint32_t], [int]) as [Z] with the
      wrap-around written out (LP64, little-endian object representation);
    - [PackBuffer::Context], the bounds-tracked write cursor;
    - the [DelegatePackBuffer<T>] strategies, selected by the static type
      of the packed value;
    - the [PackBuffer] facade.

    Memory is a flat byte store indexed by address.  A call either returns,
    leaves through [std::out_of_range], or has undefined behaviour.
    [AlignMemory], the enumeration of quanta declared in [AlignMemory.hpp],
    is represented by the number of bytes it stands for. *)

From Stdlib Require Import String ZArith List Bool Lia.
Import ListNotations.
Local Open Scope Z_scope.

(** ** Machine integers *)

Definition to_size_t (n : Z) : Z := n mod 2 ^ 64.
Definition to_uint32 (n : Z) : Z := n mod 2 ^ 32.
(** [size_t] to [int]: the value is reduced modulo 2^32 into the signed range. *)
Definition to_int (n : Z) : Z := (n + 2 ^ 31) mod 2 ^ 32 - 2 ^ 31.

Definition SIZE_MAX : Z := 2 ^ 64 - 1.
Definition sizeof_size_t : Z := 8.

Definition add64 (a b : Z) : Z := to_size_t (a + b).
Definition sub64 (a b : Z) : Z := to_size_t (a - b).
Definition mul64 (a b : Z) : Z := to_size_t (a * b).

(** Object representation of an integer: byte [i] of the little-endian
    encoding.  A trivially copyable object is seen through
    [reinterpret_cast<const uint8_t *>] as such a byte reader. *)
Definition bytes := Z -> Z.
Definition repr_le (n : Z) : bytes := fun i => Z.land (Z.shiftr n (8 * i)) 255.

Definition size {A : Type} (l : list A) : Z := Z.of_nat (length l).

(** ** Memory *)

Definition Memory := Z -> Z.

(** [std::copy(src, src + len, dst)] on bytes. *)
Definition std_copy (src : bytes) (len : Z) (dst : Z) (m : Memory) : Memory :=
  fun a => if (dst <=? a) && (a <? dst + len) then src (a - dst) else m a.

(** ** PackBuffer::Context *)

Record Context : Type := mkContext {
  buf_size_ : Z;    (* const size_t *)
  p_msg_ : Z;       (* uint8_t *, as an address *)
  msg_size_ : Z;    (* size_t *)
  alignment_ : Z    (* AlignMemory, the quantum in bytes *)
}.

Definition Context_new (_pMsg _size _alignment : Z) : Context :=
  {| buf_size_ := _size; p_msg_ := _pMsg; msg_size_ := 0; alignment_ := _alignment |}.

(** [getAlignedSize]; the chunk count and the result are [uint32_t].  (A
    quantum of 0 divides by zero in the source; the properties below are
    about positive quanta.) *)
Definition getAlignedSize (c : Context) (_size : Z) : Z :=
  let kAlignedMemChunk := to_uint32 (alignment_ c) in
  let kNumChunks :=
    to_uint32 (_size / kAlignedMemChunk
               + (if _size mod kAlignedMemChunk =? 0 then 0 else 1)) in
  to_uint32 (kNumChunks * kAlignedMemChunk).

Definition buffer (c : Context) : Z := p_msg_ c.

Definition buffer_size (c : Context) : Z := sub64 (buf_size_ c) (msg_size_ c).

(** ** Calls on a context and the memory behind it *)

Definition State : Type := Context * Memory.

Inductive outcome (S A : Type) : Type :=
| Normal (a : A) (s : S)   (* the call returns [a] *)
| Throw (s : S)            (* [std::out_of_range] leaves the call *)
| Undefined.               (* undefined behaviour *)
Arguments Normal {S A} a s.
Arguments Throw {S A} s.
Arguments Undefined {S A}.

Definition M (A : Type) : Type := State -> outcome State A.

Definition ret {A : Type} (a : A) : M A := fun s => Normal a s.

Definition bind {A B : Type} (f : M A) (g : A -> M B) : M B :=
  fun s =>
    match f s with
    | Normal a s' => g a s'
    | Throw s' => Throw s'
    | Undefined => Undefined
    end.

Declare Scope pack_scope.
Notation "f ;; g" := (bind f (fun _ => g))
  (at level 61, right associativity) : pack_scope.
Delimit Scope pack_scope with pack.
Local Open Scope pack_scope.

Section Exceptions.

(** Whether the translation unit is built with [__cpp_exceptions]: the two
    range checks of the cursor exist only then. *)
Variable cpp_exceptions : bool.

(** [operator +=]; [None] is [throw std::out_of_range]. *)
Definition operator_add_assign (c : Context) (_size : Z) : option Context :=
  if cpp_exceptions && (buf_size_ c <? add64 (msg_size_ c) _size) then None
  else
    let kAlignedSize := getAlignedSize c _size in
    Some {| buf_size_ := buf_size_ c;
            p_msg_ := p_msg_ c + kAlignedSize;
            msg_size_ := add64 (msg_size_ c) kAlignedSize;
            alignment_ := alignment_ c |}.

(** [operator -=]. *)
Definition operator_sub_assign (c : Context) (_size : Z) : option Context :=
  if cpp_exceptions && (msg_size_ c <? _size) then None
  else
    let kAlignedSize := getAlignedSize c _size in
    Some {| buf_size_ := buf_size_ c;
            p_msg_ := p_msg_ c - kAlignedSize;
            msg_size_ := sub64 (msg_size_ c) kAlignedSize;
            alignment_ := alignment_ c |}.

(** [std::copy(src, src + len, dst(_ctx))] *)
Definition copy_to (dst : Context -> Z) (src : bytes) (len : Z) : M unit :=
  fun s => Normal tt (fst s, std_copy src len (dst (fst s)) (snd s)).

(** [std::copy(src, src + len, _ctx.buffer())] *)
Definition copy_to_buffer (src : bytes) (len : Z) : M unit :=
  copy_to buffer src len.

(** [_ctx += n] *)
Definition advance (n : Z) : M unit :=
  fun s =>
    match operator_add_assign (fst s) n with
    | Some c' => Normal tt (c', snd s)
    | None => Throw s
    end.

Definition undefined {A : Type} : M A := fun _ => Undefined.

(** The shape shared by every strategy:
    [bool result = false; if (n <= _ctx.buffer_size()) { body; result = true; }
     return result;] *)
Definition if_fits (n : Z) (body : M unit) : M bool :=
  fun s =>
    if n <=? buffer_size (fst s) then (body ;; ret true) s
    else Normal false s.

(** ** DelegatePackBuffer<T>, T trivial *)

(** [getTypeSize()], [getTypeSize(const T &)] *)
Definition getTypeSize_trivial (sizeof_T : Z) : Z := sizeof_T.

(** [getTypeSize(const T (&)[dataLen])], that is [sizeof(_buffer)] *)
Definition getTypeSize_array (sizeof_T dataLen : Z) : Z := sizeof_T * dataLen.

(** [getTypeSize(const T *, size_t)] *)
Definition getTypeSize_span (sizeof_T dataLen : Z) : Z :=
  add64 sizeof_size_t (mul64 sizeof_T dataLen).

(** [put(_ctx, const T & t)] *)
Definition put_trivial (sizeof_T : Z) (t : bytes) : M bool :=
  if_fits (getTypeSize_trivial sizeof_T)
    (copy_to_buffer t sizeof_T ;;
     advance sizeof_T).

(** The packing of a [size_t] count, whose result every caller drops. *)
Definition put_count (n : Z) : M unit :=
  put_trivial sizeof_size_t (repr_le n) ;; ret tt.

(** [put(_ctx, const T * _buffer, size_t _dataLen)]; a null [_buffer] is [None]. *)
Definition put_span (sizeof_T : Z) (_buffer : option bytes) (_dataLen : Z) : M bool :=
  match _buffer with
  | None => ret false
  | Some p_start_ =>
      if_fits (getTypeSize_span sizeof_T _dataLen)
        (put_count _dataLen ;;
         copy_to_buffer p_start_ (mul64 sizeof_T _dataLen) ;;
         advance (mul64 sizeof_T _dataLen))
  end.

(** Lookup of a member function that is called without arguments on a
    [PackBuffer::Context]: the class declares [buffer()] and
    [buffer_size()], both public, and no other. *)
Definition Context_lookup (name : string) : option (Context -> Z) :=
  if String.eqb name "buffer" then Some buffer
  else if String.eqb name "buffer_size" then Some buffer_size
  else None.

(** [put(_ctx, const T (&_buffer)[dataLen])] on the [PackBuffer::Context]
    the facade passes.  The body calls [_ctx.size()] and [_ctx.data()];
    where lookup does not find a name the instantiation is ill-formed and
    there is no function, which is [None]. *)
Definition put_array (sizeof_T : Z) (_buffer : bytes) (dataLen : Z)
    : option (M bool) :=
  match Context_lookup "size", Context_lookup "data" with
  | Some ctx_size, Some ctx_data =>
      Some (fun s =>
        if getTypeSize_array sizeof_T dataLen <=? ctx_size (fst s) then
          (put_count dataLen ;;
           copy_to ctx_data _buffer (mul64 sizeof_T dataLen) ;;
           advance (mul64 sizeof_T dataLen) ;;
           ret true) s
        else Normal false s)
  | _, _ => None
  end.

(** ** DelegatePackBuffer<char*> and DelegatePackBuffer<std::string> *)

(** [std::strlen] on the characters found at the pointer; the memory there
    holds [str] followed by a terminator. *)
Fixpoint strlen (str : list Z) : Z :=
  match str with
  | [] => 0
  | ch :: rest => if ch =? 0 then 0 else 1 + strlen rest
  end.

(** The bytes read through a [const char *] to [str]. *)
Definition c_str (str : list Z) : bytes :=
  fun i => nth (Z.to_nat i) str 0.

Definition getTypeSize_cstr (str : list Z) : Z := add64 (strlen str) 1.

Definition getTypeSize_string (_str : list Z) : Z := add64 (size _str) 1.

(** The common body: [kCStringLen] is an [int], compared with and passed on
    as a [size_t]; [std::copy] over a negative range is undefined. *)
Definition put_chars (kCStringLen : Z) (p_start_ : bytes) : M bool :=
  if_fits (to_size_t kCStringLen)
    ((if kCStringLen <? 0 then undefined
      else copy_to_buffer p_start_ kCStringLen) ;;
     advance (to_size_t kCStringLen)).

(** [put(_ctx, const char * str)]; a null [str] is [None]. *)
Definition put_cstr (str : option (list Z)) : M bool :=
  match str with
  | None => ret false
  | Some text => put_chars (to_int (getTypeSize_cstr text)) (c_str text)
  end.

(** [put(_ctx, const std::string & _str)] *)
Definition put_string (_str : list Z) : M bool :=
  put_chars (to_int (getTypeSize_string _str)) (c_str _str).

(** ** The types the dispatch recognises

    [DelegatePackBuffer<T>] is chosen from the static type of the value.
    [TTrivial n] stands for any [std::is_trivial] type of size [n] that is
    packed by the primary template (a [const char *] variable among them:
    the facade strips the qualifiers of the pointer, not of what it points
    to, and only [char *] selects the string specialisation).  The types
    below it have a specialisation of their own; of these only [char *] is
    trivial. *)

Inductive ty : Type :=
| TTrivial (sizeof_T : Z)
| TCStr                      (* char * *)
| TString                    (* std::string *)
| TVector (T : ty)           (* std::vector<T> *)
| TList (T : ty)             (* std::list<T> *)
| TSet (K : ty)              (* std::set<K> *)
| TPair (K V : ty)           (* std::pair<K, V> *)
| TMap (K V : ty)            (* std::map<K, V> *)
| TUSet (K : ty)             (* std::unordered_set<K> *)
| TUMap (K V : ty).          (* std::unordered_map<K, V> *)

(** A [char *] that points to characters: the address it holds and the
    characters found there, a terminator after them.  (The null pointer is
    an argument of [put_cstr] only.) *)
Record c_string : Type := mk_c_string {
  address : Z;
  chars : list Z
}.

(** The values of a type.  A scalar is its object representation; a
    container is the list of its elements in iteration order. *)
Fixpoint value (t : ty) : Type :=
  match t with
  | TTrivial _ => bytes
  | TCStr => c_string
  | TString => list Z
  | TVector T => list (value T)
  | TList T => list (value T)
  | TSet K => list (value K)
  | TPair K V => (value K * value V)%type
  | TMap K V => list (value K * value V)
  | TUSet K => list (value K)
  | TUMap K V => list (value K * value V)
  end.

(** [std::is_trivial<T>::value], which selects the size overload of the
    containers: pointers are trivial, the class types are not. *)
Definition is_trivial (t : ty) : bool :=
  match t with TTrivial _ | TCStr => true | _ => false end.

Definition sizeof_pointer : Z := 8.

(** [sizeof(T)] where the code takes it: of a trivial type.  The size of a
    class type is a matter of the standard library in use and is only asked
    for on a path that is undefined before (see [copy_elements]). *)
Definition sizeof (t : ty) : Z :=
  match t with TTrivial n => n | TCStr => sizeof_pointer | _ => 0 end.

(** The object representation of a value of trivial type. *)
Definition object_bytes (t : ty) : value t -> bytes :=
  match t as t0 return value t0 -> bytes with
  | TTrivial _ => fun v => v
  | TCStr => fun str => repr_le (address str)
  | _ => fun _ _ => 0
  end.

(** *** Size computation *)

(** The overload enabled for a trivial element type:
    [sizeof(c.size()) + sizeof(TT) * c.size()] (vector, list, set,
    unordered_set). *)
Definition getTypeSize_closed (sizeof_TT n : Z) : Z :=
  add64 sizeof_size_t (mul64 sizeof_TT n).

(** The overload enabled otherwise:
    [typeSize = sizeof(c.size()); for (ve : c) typeSize += getTypeSize(ve);] *)
Definition getTypeSize_each {A : Type} (elem : A -> Z) (c : list A) : Z :=
  fold_left (fun typeSize ve => add64 typeSize (elem ve)) c sizeof_size_t.

(** The two overloads for key/value containers. *)
Definition getTypeSize_closed_kv (sizeof_KK sizeof_VV n : Z) : Z :=
  add64 sizeof_size_t (mul64 (add64 sizeof_KK sizeof_VV) n).

Definition getTypeSize_each_kv {A B : Type} (key : A -> Z) (val : B -> Z)
    (c : list (A * B)) : Z :=
  fold_left (fun typeSize ve => add64 (add64 typeSize (key (fst ve))) (val (snd ve)))
            c sizeof_size_t.

Fixpoint getTypeSize (t : ty) : value t -> Z :=
  match t as t0 return value t0 -> Z with
  | TTrivial n => fun _ => getTypeSize_trivial n
  | TCStr => fun str : c_string => getTypeSize_cstr (chars str)
  | TString => getTypeSize_string
  | TVector T => fun _vec : list (value T) =>
      if is_trivial T then getTypeSize_closed (sizeof T) (size _vec)
      else getTypeSize_each (getTypeSize T) _vec
  | TList T => fun _lst : list (value T) =>
      if is_trivial T then getTypeSize_closed (sizeof T) (size _lst)
      else getTypeSize_each (getTypeSize T) _lst
  | TSet K => fun _set : list (value K) =>
      if is_trivial K then getTypeSize_closed (sizeof K) (size _set)
      else getTypeSize_each (getTypeSize K) _set
  | TPair K V => fun _pr : value K * value V =>
      add64 (getTypeSize K (fst _pr)) (getTypeSize V (snd _pr))
  | TMap K V => fun _mp : list (value K * value V) =>
      (* the closed overload of this specialisation takes a
         [std::unordered_map], so a [std::map] only ever reaches this one *)
      getTypeSize_each_kv (getTypeSize K) (getTypeSize V) _mp
  | TUSet K => fun _set : list (value K) =>
      if is_trivial K then getTypeSize_closed (sizeof K) (size _set)
      else getTypeSize_each (getTypeSize K) _set
  | TUMap K V => fun _mp : list (value K * value V) =>
      if is_trivial K && is_trivial V
      then getTypeSize_closed_kv (sizeof K) (sizeof V) (size _mp)
      else getTypeSize_each_kv (getTypeSize K) (getTypeSize V) _mp
  end.

(** Whether [put] and [getTypeSize] of the type instantiate.  For a
    [std::map] with trivial key and value no [getTypeSize] overload is
    viable: the closed one is declared on [std::unordered_map], the other
    is disabled.  (The array overload of the primary template does not
    instantiate on [PackBuffer::Context] either, see [put_array].) *)
Fixpoint instantiates (t : ty) : bool :=
  match t with
  | TTrivial _ | TCStr | TString => true
  | TVector T | TList T | TSet T | TUSet T => instantiates T
  | TPair K V | TUMap K V => instantiates K && instantiates V
  | TMap K V =>
      instantiates K && instantiates V && negb (is_trivial K && is_trivial V)
  end.

(** *** Writing *)

(** [for (ve : c) DelegatePackBuffer<T>{}.put(_ctx, ve);] the results are
    dropped. *)
Fixpoint put_each {A : Type} (put_elem : A -> M bool) (c : list A) : M unit :=
  match c with
  | [] => ret tt
  | ve :: rest => put_elem ve ;; put_each put_elem rest
  end.

(** The guard of the container strategies: [if (c.size() > 0)]. *)
Definition if_nonempty {A : Type} (c : list A) (body : M bool) : M bool :=
  if 0 <? size c then body else ret false.

(** The bytes of a vector's storage, element after element. *)
Definition vector_data (sizeof_T : Z) (_vec : list bytes) : bytes :=
  fun i => nth (Z.to_nat (i / sizeof_T)) _vec (fun _ => 0) (i mod sizeof_T).

(** [std::copy] of [_vec.data()] up to [_vec.data() + _vec.size()] into the
    buffer taken as an array of [T]: a byte copy for a trivial [T]; for a
    class type it assigns to objects that were never constructed. *)
Definition copy_elements (T : ty) (_vec : list (value T)) : M unit :=
  if is_trivial T then
    copy_to_buffer (vector_data (sizeof T) (map (object_bytes T) _vec))
                   (size _vec * sizeof T)
  else undefined.

Fixpoint put (t : ty) : value t -> M bool :=
  match t as t0 return value t0 -> M bool with
  | TTrivial n => put_trivial n
  | TCStr => fun str : c_string => put_cstr (Some (chars str))
  | TString => put_string
  | TVector T => fun _vec : list (value T) =>
      if_nonempty _vec
        (if_fits (getTypeSize (TVector T) _vec)
           (put_count (size _vec) ;;
            copy_elements T _vec ;;
            advance (mul64 (size _vec) (sizeof T))))
  | TList T => fun _lst : list (value T) =>
      if_nonempty _lst
        (if_fits (getTypeSize (TList T) _lst)
           (put_count (size _lst) ;;
            put_each (put T) _lst))
  | TSet K => fun _set : list (value K) =>
      if_nonempty _set
        (if_fits (getTypeSize (TSet K) _set)
           (put_count (size _set) ;;
            put_each (put K) _set))
  | TPair K V => fun _pr : value K * value V =>
      if_fits (getTypeSize (TPair K V) _pr)
        (put K (fst _pr) ;;
         put V (snd _pr) ;;
         ret tt)
  | TMap K V => fun _mp : list (value K * value V) =>
      if_nonempty _mp
        (if_fits (getTypeSize (TMap K V) _mp)
           (put_count (size _mp) ;;
            put_each (fun ve => put K (fst ve) ;; put V (snd ve)) _mp))
  | TUSet K => fun _set : list (value K) =>
      if_nonempty _set
        (if_fits (getTypeSize (TUSet K) _set)
           (put_count (size _set) ;;
            put_each (put K) _set))
  | TUMap K V => fun _mp : list (value K * value V) =>
      if_nonempty _mp
        (if_fits (getTypeSize (TUMap K V) _mp)
           (put_count (size _mp) ;;
            put_each (fun ve => put K (fst ve) ;; put V (snd ve)) _mp))
  end.

(** ** The PackBuffer facade *)

Record PackBuffer : Type := mkPackBuffer {
  p_buf_ : Z;          (* uint8_t * const *)
  context_ : Context
}.

(** [PackBuffer(_pMsg, size, _alignment)] *)
Definition PackBuffer_new (_pMsg size_ _alignment : Z) : PackBuffer :=
  {| p_buf_ := _pMsg; context_ := Context_new _pMsg size_ _alignment |}.

(** [PackBuffer(_pMsg, _alignment)], the delegating constructor. *)
Definition PackBuffer_unbounded (_pMsg _alignment : Z) : PackBuffer :=
  PackBuffer_new _pMsg SIZE_MAX _alignment.

Definition getData (b : PackBuffer) : Z := p_buf_ b.
Definition getDataSize (b : PackBuffer) : Z := msg_size_ (context_ b).
Definition getBufferSize (b : PackBuffer) : Z := buffer_size (context_ b).

Definition Buffer : Type := PackBuffer * Memory.

(** A member function handing [context_] to a strategy. *)
Definition with_context {A : Type} (f : M A) : Buffer -> outcome Buffer A :=
  fun b =>
    let set c := {| p_buf_ := p_buf_ (fst b); context_ := c |} in
    match f (context_ (fst b), snd b) with
    | Normal a s => Normal a (set (fst s), snd s)
    | Throw s => Throw (set (fst s), snd s)
    | Undefined => Undefined
    end.

(** [put(const T & _t)] *)
Definition PackBuffer_put (t : ty) (_t : value t) : Buffer -> outcome Buffer bool :=
  with_context (put t _t).

(** [put(const char (&)[dataLen])] and [put] of a [char *] variable. *)
Definition PackBuffer_put_cstr (str : option (list Z)) : Buffer -> outcome Buffer bool :=
  with_context (put_cstr str).

(** [put(const T * _buffer, size_t dataLen)] *)
Definition PackBuffer_put_span (sizeof_T : Z) (_buffer : option bytes) (dataLen : Z)
    : Buffer -> outcome Buffer bool :=
  with_context (put_span sizeof_T _buffer dataLen).

(** [reset()] *)
Definition reset : Buffer -> outcome Buffer unit :=
  with_context (fun s =>
    match operator_sub_assign (fst s) (msg_size_ (fst s)) with
    | Some c' => Normal tt (c', snd s)
    | None => Throw s
    end).

End Exceptions.

(** ** [operator<<] and sessions *)

(** [buffer << t]: [put], the result dropped. *)
Definition operator_shl (cpp_exceptions : bool) (t : ty) (_t : value t)
    : Buffer -> outcome Buffer unit :=
  fun b =>
    match PackBuffer_put cpp_exceptions t _t b with
    | Normal _ b' => Normal tt b'
    | Throw b' => Throw b'
    | Undefined => Undefined
    end.

(** A call on the facade, its arguments included. *)
Inductive call : Type :=
| Put (t : ty) (v : value t)               (* put(v), buffer << v *)
| PutCStr (str : option (list Z))          (* put of a char pointer or literal *)
| PutSpan (sizeof_T : Z) (_buffer : option bytes) (dataLen : Z)
                                           (* put(pointer, length) *)
| Reset.                                   (* reset() *)

(** The call carried out, what it returns dropped. *)
Definition perform (cpp_exceptions : bool) (k : call) : Buffer -> outcome Buffer unit :=
  fun b =>
    let drop (o : outcome Buffer bool) : outcome Buffer unit :=
      match o with
      | Normal _ b' => Normal tt b'
      | Throw b' => Throw b'
      | Undefined => Undefined
      end in
    match k with
    | Put t v => operator_shl cpp_exceptions t v b
    | PutCStr str => drop (PackBuffer_put_cstr cpp_exceptions str b)
    | PutSpan sizeof_T _buffer dataLen =>
        drop (PackBuffer_put_span cpp_exceptions sizeof_T _buffer dataLen b)
    | Reset => reset cpp_exceptions b
    end.

(** A sequence of calls; an exception that nobody catches ends it. *)
Fixpoint session (cpp_exceptions : bool) (ks : list call) : Buffer -> outcome Buffer unit :=
  fun b =>
    match ks with
    | [] => Normal tt b
    | k :: rest =>
        match perform cpp_exceptions k b with
        | Normal _ b' => session cpp_exceptions rest b'
        | Throw b' => Throw b'
        | Undefined => Undefined
        end
    end.

(** * The vocabulary of the properties *)

(** ** Rounding *)

(** [ceil(n / q)] and [ceil(n / q) * q] *)
Definition ceil_div (n q : Z) : Z := (n + q - 1) / q.
Definition round_up (q n : Z) : Z := ceil_div n q * q.

(** ** Cursors *)

(** The cursor [a] bytes further on. *)
Definition moved (c : Context) (a : Z) : Context :=
  {| buf_size_ := buf_size_ c;
     p_msg_ := p_msg_ c + a;
     msg_size_ := msg_size_ c + a;
     alignment_ := alignment_ c |}.

(** A cursor inside its buffer, with a quantum that [uint32_t] holds. *)
Definition in_bounds (c : Context) : Prop :=
  0 < alignment_ c < 2 ^ 32 /\ 0 <= msg_size_ c <= buf_size_ c /\ buf_size_ c <= SIZE_MAX.

(** The cursor works with quantum [q] and its offset is a [size_t] that
    [q] divides. *)
Definition aligned (q : Z) (c : Context) : Prop :=
  alignment_ c = q /\ (q | msg_size_ c) /\ 0 <= msg_size_ c < 2 ^ 64.

(** What a call has to leave behind, however it ends. *)
Definition keeps (q : Z) {A : Type} (o : outcome State A) : Prop :=
  match o with
  | Normal _ s | Throw s => aligned q (fst s)
  | Undefined => True
  end.

(** [f] keeps the cursor aligned. *)
Definition preserves (q : Z) {A : Type} (f : M A) : Prop :=
  forall s, aligned q (fst s) -> keeps q (f s).

(** [f] finds room for [n] bytes from any cursor of quantum [q] in bounds,
    and moves the cursor by exactly [n]. *)
Definition moves_by (q : Z) {A : Type} (f : M A) (n : Z) : Prop :=
  forall c m,
    in_bounds c -> alignment_ c = q -> msg_size_ c + n <= buf_size_ c ->
    exists r m', f (c, m) = Normal r (moved c n, m').

(** [operator +=] of [n] bytes is accepted and moves pointer and offset by
    [r]. *)
Definition advances_by (c : Context) (n r : Z) : Prop :=
  exists c', operator_add_assign true c n = Some c'
             /\ p_msg_ c' - p_msg_ c = r /\ msg_size_ c' - msg_size_ c = r.

(** ** Sessions: sequences of [put] and [reset] calls *)

(** The buffer a call leaves behind, whether it returns or throws. *)
Definition leaves {A : Type} (o : outcome Buffer A) (b' : Buffer) : Prop :=
  match o with
  | Normal _ b | Throw b => b = b'
  | Undefined => False
  end.

(** One call on the facade. *)
Inductive step (exc : bool) (b : Buffer) : Buffer -> Prop :=
| step_put (t : ty) (v : value t) b' :
    leaves (PackBuffer_put exc t v b) b' -> step exc b b'
| step_put_cstr (str : option (list Z)) b' :
    leaves (PackBuffer_put_cstr exc str b) b' -> step exc b b'
| step_put_span (sizeof_T : Z) (_buffer : option bytes) (dataLen : Z) b' :
    leaves (PackBuffer_put_span exc sizeof_T _buffer dataLen b) b' -> step exc b b'
| step_reset b' :
    leaves (reset exc b) b' -> step exc b b'.

(** The buffers a session over a fresh [PackBuffer] of quantum [q] can be in. *)
Inductive reachable (exc : bool) (q : Z) : Buffer -> Prop :=
| reachable_new (_pMsg size_ : Z) (m : Memory) :
    reachable exc q (PackBuffer_new _pMsg size_ q, m)
| reachable_step (b b' : Buffer) :
    reachable exc q b -> step exc b b' -> reachable exc q b'.

(** ** What a successful [put] advances by *)

(** The sum of [f] over a list. *)
Definition sum_of {A : Type} (f : A -> Z) (l : list A) : Z :=
  fold_right (fun x acc => f x + acc) 0 l.

(** The bytes [put] moves the cursor by when every piece of the value finds
    room: each piece written through the cursor on its own (a scalar, a
    string, a count field, the storage of a vector) takes its size rounded
    up to the quantum. *)
Fixpoint footprint (q : Z) (t : ty) : value t -> Z :=
  match t as t0 return value t0 -> Z with
  | TTrivial n => fun _ => round_up q n
  | TCStr => fun str : c_string => round_up q (strlen (chars str) + 1)
  | TString => fun _str : list Z => round_up q (size _str + 1)
  | TVector T => fun _vec : list (value T) =>
      round_up q sizeof_size_t + round_up q (size _vec * sizeof T)
  | TList T => fun _lst : list (value T) =>
      round_up q sizeof_size_t + sum_of (footprint q T) _lst
  | TSet K => fun _set : list (value K) =>
      round_up q sizeof_size_t + sum_of (footprint q K) _set
  | TPair K V => fun _pr : value K * value V =>
      footprint q K (fst _pr) + footprint q V (snd _pr)
  | TMap K V => fun _mp : list (value K * value V) =>
      round_up q sizeof_size_t
      + sum_of (fun ve => footprint q K (fst ve) + footprint q V (snd ve)) _mp
  | TUSet K => fun _set : list (value K) =>
      round_up q sizeof_size_t + sum_of (footprint q K) _set
  | TUMap K V => fun _mp : list (value K * value V) =>
      round_up q sizeof_size_t
      + sum_of (fun ve => footprint q K (fst ve) + footprint q V (snd ve)) _mp
  end.

(** Whether the size overload chosen for elements of type [T] counts what
    [put] writes for them.  For [char *] elements the closed overload is
    chosen and counts pointers, where the list and set strategies write the
    characters. *)
Definition counted (T : ty) : bool :=
  match T with TCStr => false | _ => true end.

(** The same for a key/value container: the closed overload is chosen when
    key and value are trivial. *)
Definition counted_kv (K V : ty) : bool :=
  negb (is_trivial K && is_trivial V) || (counted K && counted V).

(** The values [put] packs in full: scalars have a size, a vector holds
    trivial elements, the elements of the other containers are counted as
    they are written, and no container in the value is empty. *)
Fixpoint packable (t : ty) : value t -> bool :=
  match t as t0 return value t0 -> bool with
  | TTrivial n => fun _ => 0 <? n
  | TCStr => fun _ => true
  | TString => fun _ => true
  | TVector T => fun _vec : list (value T) =>
      is_trivial T && (0 <? sizeof T) && (0 <? size _vec)
  | TList T => fun _lst : list (value T) =>
      (0 <? size _lst) && counted T && forallb (packable T) _lst
  | TSet K => fun _set : list (value K) =>
      (0 <? size _set) && counted K && forallb (packable K) _set
  | TPair K V => fun _pr : value K * value V =>
      packable K (fst _pr) && packable V (snd _pr)
  | TMap K V => fun _mp : list (value K * value V) =>
      (0 <? size _mp)
      && forallb (fun ve => packable K (fst ve) && packable V (snd ve)) _mp
  | TUSet K => fun _set : list (value K) =>
      (0 <? size _set) && counted K && forallb (packable K) _set
  | TUMap K V => fun _mp : list (value K * value V) =>
      (0 <? size _mp) && counted_kv K V
      && forallb (fun ve => packable K (fst ve) && packable V (snd ve)) _mp
  end.

(** The values none of whose pieces needs padding: the quantum divides the
    size of each. *)
Fixpoint unpadded (q : Z) (t : ty) : value t -> bool :=
  match t as t0 return value t0 -> bool with
  | TTrivial n => fun _ => n mod q =? 0
  | TCStr => fun str : c_string => (strlen (chars str) + 1) mod q =? 0
  | TString => fun _str : list Z => (size _str + 1) mod q =? 0
  | TVector T => fun _vec : list (value T) =>
      (sizeof_size_t mod q =? 0) && ((size _vec * sizeof T) mod q =? 0)
  | TList T => fun _lst : list (value T) =>
      (sizeof_size_t mod q =? 0) && forallb (unpadded q T) _lst
  | TSet K => fun _set : list (value K) =>
      (sizeof_size_t mod q =? 0) && forallb (unpadded q K) _set
  | TPair K V => fun _pr : value K * value V =>
      unpadded q K (fst _pr) && unpadded q V (snd _pr)
  | TMap K V => fun _mp : list (value K * value V) =>
      (sizeof_size_t mod q =? 0)
      && forallb (fun ve => unpadded q K (fst ve) && unpadded q V (snd ve)) _mp
  | TUSet K => fun _set : list (value K) =>
      (sizeof_size_t mod q =? 0) && forallb (unpadded q K) _set
  | TUMap K V => fun _mp : list (value K * value V) =>
      (sizeof_size_t mod q =? 0)
      && forallb (fun ve => unpadded q K (fst ve) && unpadded q V (snd ve)) _mp
  end.

(** ** Triples *)

(** From a state in [P], [f] ends in a state in [Q]; it may leave through
    an exception only where [may_throw] says so.  Nothing is asked of a
    call whose behaviour is undefined. *)
Definition triple {A : Type} (may_throw : bool) (P : State -> Prop) (f : M A)
    (Q : State -> Prop) : Prop :=
  forall s, P s ->
    match f s with
    | Normal _ s' => Q s'
    | Throw s' => may_throw = true /\ Q s'
    | Undefined => True
    end.

(** From a state in [P], [f] returns, in a state in [Q]. *)
Definition returns {A : Type} (P : State -> Prop) (f : M A) (Q : State -> Prop)
    : Prop :=
  forall s, P s -> exists a s', f s = Normal a s' /\ Q s'.

(** The same on the facade. *)
Definition ends_in {A : Type} (may_throw : bool) (o : outcome Buffer A)
    (Q : Buffer -> Prop) : Prop :=
  match o with
  | Normal _ b' => Q b'
  | Throw b' => may_throw = true /\ Q b'
  | Undefined => True
  end.

(** The write pointer is at [L] or beyond and the bytes below [L] are those
    of [m0]. *)
Definition prefix_kept (L : Z) (m0 : Memory) (s : State) : Prop :=
  L <= p_msg_ (fst s) /\ forall a, a < L -> snd s a = m0 a.

(** A cursor of quantum [q] over the [B] bytes at [base], in step with its
    offset, and a memory that agrees with [m0] outside these bytes. *)
Definition inside (q base B : Z) (m0 : Memory) (s : State) : Prop :=
  alignment_ (fst s) = q
  /\ buf_size_ (fst s) = B
  /\ (q | msg_size_ (fst s))
  /\ 0 <= msg_size_ (fst s) <= B
  /\ p_msg_ (fst s) = base + msg_size_ (fst s)
  /\ forall a, a < base \/ base + B <= a -> snd s a = m0 a.

(** The facade over such a cursor. *)
Definition within (q base B : Z) (m0 : Memory) (b : Buffer) : Prop :=
  p_buf_ (fst b) = base /\ inside q base B m0 (context_ (fst b), snd b).

(** [inside], with [k] bytes left at least. *)
Definition room (q base B : Z) (m0 : Memory) (k : Z) (s : State) : Prop :=
  inside q base B m0 s /\ k <= buf_size_ (fst s) - msg_size_ (fst s).

(** The values a program can hold and pack without undefined behaviour: a
    scalar type has a size that is not negative; the length of a string,
    its terminator included, is one an [int] holds; a vector has elements
    of trivial type, and its storage, the count field before it, does not
    exceed what a [size_t] counts. *)
Fixpoint plausible (t : ty) : value t -> bool :=
  match t as t0 return value t0 -> bool with
  | TTrivial n => fun _ => 0 <=? n
  | TCStr => fun str : c_string => strlen (chars str) + 1 <? 2 ^ 31
  | TString => fun _str : list Z => size _str + 1 <? 2 ^ 31
  | TVector T => fun _vec : list (value T) =>
      is_trivial T && (0 <=? sizeof T)
      && (sizeof_size_t + size _vec * sizeof T <=? SIZE_MAX)
  | TList T => fun _lst : list (value T) => forallb (plausible T) _lst
  | TSet K => fun _set : list (value K) => forallb (plausible K) _set
  | TPair K V => fun _pr : value K * value V =>
      plausible K (fst _pr) && plausible V (snd _pr)
  | TMap K V => fun _mp : list (value K * value V) =>
      forallb (fun ve => plausible K (fst ve) && plausible V (snd ve)) _mp
  | TUSet K => fun _set : list (value K) => forallb (plausible K) _set
  | TUMap K V => fun _mp : list (value K * value V) =>
      forallb (fun ve => plausible K (fst ve) && plausible V (snd ve)) _mp
  end.

(** The same for a call: the bytes of a span, the count field before them,
    do not exceed what a [size_t] counts. *)
Definition plausible_call (k : call) : bool :=
  match k with
  | Put t v => plausible t v
  | PutCStr None => true
  | PutCStr (Some text) => strlen text + 1 <? 2 ^ 31
  | PutSpan sizeof_T _ dataLen =>
      (0 <=? sizeof_T) && (0 <=? dataLen)
      && (sizeof_size_t + sizeof_T * dataLen <=? SIZE_MAX)
  | Reset => true
  end.

(** Whether the value is a container without elements. *)
Definition is_empty (t : ty) : value t -> bool :=
  match t as t0 return value t0 -> bool with
  | TVector T => fun _vec : list (value T) => size _vec <=? 0
  | TList T => fun _lst : list (value T) => size _lst <=? 0
  | TSet K => fun _set : list (value K) => size _set <=? 0
  | TMap K V => fun _mp : list (value K * value V) => size _mp <=? 0
  | TUSet K => fun _set : list (value K) => size _set <=? 0
  | TUMap K V => fun _mp : list (value K * value V) => size _mp <=? 0
  | _ => fun _ => false
  end.

(** [char *] and [std::string], whose length passes through an [int]. *)
Definition is_text (t : ty) : bool :=
  match t with TCStr | TString => true | _ => false end.

Definition is_reset (k : call) : bool :=
  match k with Reset => true | _ => false end.

(** [inside], the write pointer at [p] or beyond, and a memory that agrees
    with [m0] below [p] and from the write pointer on; with [k] bytes left
    at least. *)
Definition between (q base B : Z) (m0 : Memory) (p k : Z) (s : State) : Prop :=
  room q base B m0 k s
  /\ p <= p_msg_ (fst s)
  /\ forall a, a < p \/ p_msg_ (fst s) <= a -> snd s a = m0 a.

(** ** Sample data *)

(** A memory of zeros. *)
Definition mem0 : Memory := fun _ => 0.

Definition int32_t : ty := TTrivial 4.

(** The characters of ["hello"]. *)
Definition hello : list Z := [104; 101; 108; 108; 111].

(** A buffer at [_pMsg] whose cursor stands at offset [off]. *)
Definition buffer_at (_pMsg size_ q off : Z) (m : Memory) : Buffer :=
  ({| p_buf_ := _pMsg;
      context_ := {| buf_size_ := size_; p_msg_ := _pMsg + off; msg_size_ := off;
                     alignment_ := q |} |}, m).

(** A session with quantum 4 and capacity 64, after [put] of the [int32_t]
    7, then of the string ["hello"], then of a list of the [int32_t] 1
    and 2. *)
Definition session_1 : Buffer :=
  buffer_at 0 64 (2 ^ 2) 4 (std_copy (repr_le 7) 4 0 mem0).
Definition session_2 : Buffer :=
  buffer_at 0 64 (2 ^ 2) 12 (std_copy (c_str hello) 6 4 (snd session_1)).
Definition session_3 : Buffer :=
  buffer_at 0 64 (2 ^ 2) 28
    (std_copy (repr_le 2) 4 24
       (std_copy (repr_le 1) 4 20
          (std_copy (repr_le 2) 8 12 (snd session_2)))).

(** A buffer built by the delegating constructor, quantum 4, after [put] of
    2^32 - 8 bytes through the pointer-and-length overload. *)
Definition large_session : Buffer :=
  buffer_at 0 SIZE_MAX 4 (2 ^ 32)
    (std_copy (fun _ => 1) (2 ^ 32 - 8) 8
       (std_copy (repr_le (2 ^ 32 - 8)) 8 0 mem0)).

(** A map from strings to [int32_t] with two entries. *)
Definition ages : value (TMap TString int32_t) :=
  [([97; 98; 99], repr_le 30); (hello, repr_le 41)].

(** * Properties *)

(** ** Arithmetic of the machine integers *)

Lemma to_size_t_small n : 0 <= n < 2 ^ 64 -> to_size_t n = n.
Proof. intros H. unfold to_size_t. apply Z.mod_small. exact H. Qed.

Lemma to_uint32_small n : 0 <= n < 2 ^ 32 -> to_uint32 n = n.
Proof. intros H. unfold to_uint32. apply Z.mod_small. exact H. Qed.

Lemma to_int_small n : 0 <= n < 2 ^ 31 -> to_int n = n.
Proof.
  intros H. unfold to_int. rewrite Z.mod_small; lia.
Qed.

Lemma to_size_t_range n : 0 <= to_size_t n < 2 ^ 64.
Proof. unfold to_size_t. apply Z.mod_pos_bound. reflexivity. Qed.

Lemma chunks_ceil_div n q :
  0 < q -> n / q + (if n mod q =? 0 then 0 else 1) = ceil_div n q.
Proof.
  intros Hq. unfold ceil_div.
  pose proof (Z.div_mod n q ltac:(lia)) as E.
  pose proof (Z.mod_pos_bound n q Hq) as B.
  destruct (Z.eqb_spec (n mod q) 0) as [Z0 | NZ].
  - apply Z.div_unique with (r := q - 1); lia.
  - apply Z.div_unique with (r := n mod q - 1); lia.
Qed.

Lemma round_up_bounds q n : 0 < q -> n <= round_up q n < n + q.
Proof.
  intros Hq. unfold round_up, ceil_div.
  pose proof (Z.div_mod (n + q - 1) q ltac:(lia)) as E.
  pose proof (Z.mod_pos_bound (n + q - 1) q Hq) as B.
  lia.
Qed.

Lemma round_up_divide q n : (q | round_up q n).
Proof. unfold round_up. apply Z.divide_factor_r. Qed.

Lemma ceil_div_nonneg n q : 0 < q -> 0 <= n -> 0 <= ceil_div n q.
Proof. intros Hq Hn. unfold ceil_div. apply Z.div_pos; lia. Qed.

Lemma round_up_fixed q n : 0 < q -> (q | n) -> round_up q n = n.
Proof.
  intros Hq [k ->]. unfold round_up, ceil_div.
  replace (k * q + q - 1) with (q - 1 + k * q) by lia.
  rewrite Z.div_add by lia. rewrite Z.div_small by lia. lia.
Qed.

(** The rounded size as the cursor computes it, when it fits 32 bits. *)
Lemma getAlignedSize_round_up c n :
  0 < alignment_ c < 2 ^ 32 -> 0 <= n -> round_up (alignment_ c) n < 2 ^ 32 ->
  getAlignedSize c n = round_up (alignment_ c) n.
Proof.
  intros Hq Hn Hr. unfold getAlignedSize.
  cbv zeta. rewrite (to_uint32_small (alignment_ c)) by lia.
  rewrite chunks_ceil_div by lia.
  pose proof (ceil_div_nonneg n (alignment_ c) ltac:(lia) Hn) as Hk.
  unfold round_up in *.
  rewrite (to_uint32_small (ceil_div n (alignment_ c))) by nia.
  apply to_uint32_small. nia.
Qed.

(** ** Size computation: the two overloads agree *)

(** A [std::map] from scalars to scalars finds no size overload; the
    unordered map does. *)
Lemma map_of_scalars_not_instantiated :
  instantiates (TMap int32_t int32_t) = false
  /\ instantiates (TUMap int32_t int32_t) = true
  /\ instantiates (TMap TString int32_t) = true.
Proof. repeat split. Qed.

Lemma add64_to_size_t_l a b : add64 (to_size_t a) b = to_size_t (a + b).
Proof.
  unfold add64, to_size_t. apply Z.add_mod_idemp_l. discriminate.
Qed.

Lemma getTypeSize_each_constant {A : Type} (n : Z) (c : list A) (a : Z) :
  fold_left (fun typeSize (_ : A) => add64 typeSize n) c (to_size_t a)
  = to_size_t (a + n * size c).
Proof.
  unfold size. revert a. induction c as [| ve c IH]; intros a.
  - simpl. f_equal. lia.
  - cbn [fold_left length]. rewrite add64_to_size_t_l, IH. f_equal. lia.
Qed.

Lemma getTypeSize_each_kv_constant {A : Type} (nk nv : Z) (c : list A) (a : Z) :
  fold_left (fun typeSize (_ : A) => add64 (add64 typeSize nk) nv) c (to_size_t a)
  = to_size_t (a + (nk + nv) * size c).
Proof.
  unfold size. revert a. induction c as [| ve c IH]; intros a.
  - simpl. f_equal. lia.
  - cbn [fold_left length]. rewrite !add64_to_size_t_l, IH. f_equal. lia.
Qed.

Lemma getTypeSize_closed_unfold n k :
  getTypeSize_closed n k = to_size_t (sizeof_size_t + n * k).
Proof.
  unfold getTypeSize_closed, add64, mul64, to_size_t.
  rewrite Z.add_mod_idemp_r by discriminate. reflexivity.
Qed.

Lemma getTypeSize_closed_kv_unfold nk nv k :
  getTypeSize_closed_kv nk nv k = to_size_t (sizeof_size_t + (nk + nv) * k).
Proof.
  unfold getTypeSize_closed_kv, add64, mul64, to_size_t.
  rewrite Z.mul_mod_idemp_l by discriminate.
  rewrite Z.add_mod_idemp_r by discriminate. reflexivity.
Qed.

(** C7. For a container of fixed-width scalars the closed-form overload
    (count field plus element count times element size) returns exactly
    what the element-by-element overload returns, for sequences and sets
    and for key/value containers; the dispatched [getTypeSize] of each
    container type is that common value. *)
Theorem size_paths_agree (n nk nv : Z)
    (c : list (value (TTrivial n)))
    (kv : list (value (TTrivial nk) * value (TTrivial nv))) :
  getTypeSize_closed n (size c) = getTypeSize_each (getTypeSize (TTrivial n)) c
  /\ getTypeSize_closed_kv nk nv (size kv)
     = getTypeSize_each_kv (getTypeSize (TTrivial nk)) (getTypeSize (TTrivial nv)) kv
  /\ getTypeSize (TVector (TTrivial n)) c = getTypeSize_each (getTypeSize (TTrivial n)) c
  /\ getTypeSize (TList (TTrivial n)) c = getTypeSize_each (getTypeSize (TTrivial n)) c
  /\ getTypeSize (TSet (TTrivial n)) c = getTypeSize_each (getTypeSize (TTrivial n)) c
  /\ getTypeSize (TUSet (TTrivial n)) c = getTypeSize_each (getTypeSize (TTrivial n)) c
  /\ getTypeSize (TUMap (TTrivial nk) (TTrivial nv)) kv
     = getTypeSize_each_kv (getTypeSize (TTrivial nk)) (getTypeSize (TTrivial nv)) kv.
Proof.
  assert (E1 : getTypeSize_closed n (size c)
               = getTypeSize_each (getTypeSize (TTrivial n)) c).
  { rewrite getTypeSize_closed_unfold. unfold getTypeSize_each.
    change sizeof_size_t with (to_size_t sizeof_size_t) at 2.
    symmetry. apply (getTypeSize_each_constant n c sizeof_size_t). }
  assert (E2 : getTypeSize_closed_kv nk nv (size kv)
               = getTypeSize_each_kv (getTypeSize (TTrivial nk))
                                     (getTypeSize (TTrivial nv)) kv).
  { rewrite getTypeSize_closed_kv_unfold. unfold getTypeSize_each_kv.
    change sizeof_size_t with (to_size_t sizeof_size_t) at 2.
    symmetry. apply (getTypeSize_each_kv_constant nk nv kv sizeof_size_t). }
  repeat split; try exact E1; exact E2.
Qed.

(** ** Failure leaves everything as it was *)

Section Failure.

Variable exc : bool.

(** Once the guard is passed, the result is [true]. *)
Lemma bind_ret_true_not_false (body : M unit) (s s' : State) :
  (body ;; ret true) s <> Normal false s'.
Proof.
  unfold bind, ret. destruct (body s); discriminate.
Qed.

Lemma if_fits_false (n : Z) (body : M unit) (s s' : State) :
  if_fits n body s = Normal false s' -> s' = s.
Proof.
  unfold if_fits. destruct (n <=? buffer_size (fst s)).
  - intros H. exfalso. exact (bind_ret_true_not_false _ _ _ H).
  - intros H. injection H as H. symmetry. exact H.
Qed.

Lemma if_nonempty_false {A : Type} (c : list A) (n : Z) (body : M unit) (s s' : State) :
  if_nonempty c (if_fits n body) s = Normal false s' -> s' = s.
Proof.
  unfold if_nonempty. destruct (0 <? size c).
  - apply if_fits_false.
  - unfold ret. intros H. injection H as H. symmetry. exact H.
Qed.

Lemma put_chars_false (n : Z) (p : bytes) (s s' : State) :
  put_chars exc n p s = Normal false s' -> s' = s.
Proof. apply if_fits_false. Qed.

Lemma put_false (t : ty) (v : value t) (s s' : State) :
  put exc t v s = Normal false s' -> s' = s.
Proof.
  destruct t; cbn [put];
    first [ apply if_fits_false | apply if_nonempty_false | apply put_chars_false ].
Qed.

Lemma put_span_false (n : Z) (p : option bytes) (len : Z) (s s' : State) :
  put_span exc n p len s = Normal false s' -> s' = s.
Proof.
  destruct p as [p |]; cbn [put_span].
  - apply if_fits_false.
  - unfold ret. intros H. injection H as H. symmetry. exact H.
Qed.

Lemma put_cstr_false (str : option (list Z)) (s s' : State) :
  put_cstr exc str s = Normal false s' -> s' = s.
Proof.
  destruct str as [text |]; cbn [put_cstr].
  - apply put_chars_false.
  - unfold ret. intros H. injection H as H. symmetry. exact H.
Qed.

Lemma with_context_false (f : M bool) (b b' : Buffer) :
  (forall s s', f s = Normal false s' -> s' = s) ->
  with_context f b = Normal false b' -> b' = b.
Proof.
  intros Hf. unfold with_context. destruct b as [[p c] m]. cbn [fst snd p_buf_ context_].
  destruct (f (c, m)) as [r s | s |] eqn:E; try discriminate.
  intros H. injection H as Hr Hb. subst r b'.
  rewrite (Hf _ _ E). reflexivity.
Qed.

Lemma with_context_ret {A : Type} (a : A) (b : Buffer) :
  with_context (ret a) b = Normal a b.
Proof. destruct b as [[p c] m]. reflexivity. Qed.

End Failure.

(** C2. Whenever [put] of a value of any dispatched type returns failure,
    the buffer is exactly as before the call: no byte of memory is written
    and the cursor is unchanged, so that [getDataSize()] and
    [getBufferSize()] report what they reported before. *)
Theorem no_partial_write (exc : bool) (t : ty) (v : value t) (b b' : Buffer) :
  PackBuffer_put exc t v b = Normal false b' ->
  b' = b
  /\ getDataSize (fst b') = getDataSize (fst b)
  /\ getBufferSize (fst b') = getBufferSize (fst b).
Proof.
  intros H. apply with_context_false in H.
  - subst b'. repeat split.
  - apply put_false.
Qed.

(** The same for the pointer-and-length overload. *)
Lemma no_partial_write_span (exc : bool) (n : Z) (p : option bytes) (len : Z)
    (b b' : Buffer) :
  PackBuffer_put_span exc n p len b = Normal false b' -> b' = b.
Proof. apply with_context_false. apply put_span_false. Qed.

(** And for a [char *], null or not. *)
Lemma no_partial_write_cstr (exc : bool) (str : option (list Z)) (b b' : Buffer) :
  PackBuffer_put_cstr exc str b = Normal false b' -> b' = b.
Proof. apply with_context_false. apply put_cstr_false. Qed.

(** A capacity failure does occur: the size is compared with what is left. *)
Lemma put_trivial_rejected (exc : bool) (n : Z) (v : bytes) (b : Buffer) :
  getBufferSize (fst b) < getTypeSize (TTrivial n) v ->
  PackBuffer_put exc (TTrivial n) v b = Normal false b.
Proof.
  intros H. destruct b as [[p c] m]. cbn in *.
  unfold PackBuffer_put, with_context, put, put_trivial, if_fits.
  cbn [fst snd context_ p_buf_]. unfold getBufferSize in H. cbn in H.
  unfold getTypeSize_trivial in *.
  destruct (Z.leb_spec n (buffer_size c)); [lia | reflexivity].
Qed.

(** An [int32_t] on a buffer of two bytes. *)
Lemma no_partial_write_witness :
  let b : Buffer := (PackBuffer_new 0 2 4, mem0) in
  PackBuffer_put true (TTrivial 4) (repr_le 7) b = Normal false b
  /\ (b = b
      /\ getDataSize (fst b) = getDataSize (fst b)
      /\ getBufferSize (fst b) = getBufferSize (fst b)).
Proof.
  intros b. split.
  - reflexivity.
  - apply (no_partial_write true (TTrivial 4) (repr_le 7) b b). reflexivity.
Defined.

(** C5. [put] of an empty vector, list, set, map, unordered set or
    unordered map returns failure and leaves memory and cursor untouched:
    not even a zero count is written. *)
Theorem empty_container_omitted (exc : bool) (T K V : ty) (b : Buffer) :
  PackBuffer_put exc (TVector T) [] b = Normal false b
  /\ PackBuffer_put exc (TList T) [] b = Normal false b
  /\ PackBuffer_put exc (TSet K) [] b = Normal false b
  /\ PackBuffer_put exc (TMap K V) [] b = Normal false b
  /\ PackBuffer_put exc (TUSet K) [] b = Normal false b
  /\ PackBuffer_put exc (TUMap K V) [] b = Normal false b.
Proof.
  unfold PackBuffer_put. cbn [put]. unfold if_nonempty.
  cbn [size length Z.of_nat Z.ltb Z.compare].
  repeat split; apply with_context_ret.
Qed.

(** C10. A null data pointer with any explicit length, and a null pointer
    handed to the C-string strategy, are refused at run time: [put] returns
    failure and the buffer is left as it was. *)
Theorem null_pointer_rejected (exc : bool) (sizeof_T n : Z) (b : Buffer) :
  PackBuffer_put_span exc sizeof_T None n b = Normal false b
  /\ PackBuffer_put_cstr exc None b = Normal false b.
Proof.
  split; apply with_context_ret.
Qed.

(** ** The cursor *)

(** What an accepted [operator +=] does to the cursor. *)
Lemma operator_add_assign_Some (exc : bool) (c c' : Context) (n : Z) :
  operator_add_assign exc c n = Some c' ->
  c' = {| buf_size_ := buf_size_ c;
          p_msg_ := p_msg_ c + getAlignedSize c n;
          msg_size_ := add64 (msg_size_ c) (getAlignedSize c n);
          alignment_ := alignment_ c |}.
Proof.
  unfold operator_add_assign.
  destruct (exc && (buf_size_ c <? add64 (msg_size_ c) n)); [discriminate |].
  intros H. injection H as H. symmetry. exact H.
Qed.

(** C4. An accepted advance of [n] bytes whose rounded size fits the 32
    bits it is computed in moves the write pointer by exactly
    [ceil(n / q) * q], [q] being the quantum, and adds that amount to the
    offset (in [size_t] arithmetic, so by exactly that amount when the sum
    is representable). *)
Theorem alignment_rounding (exc : bool) (c c' : Context) (n : Z) :
  0 < alignment_ c < 2 ^ 32 ->
  0 <= n ->
  round_up (alignment_ c) n < 2 ^ 32 ->
  operator_add_assign exc c n = Some c' ->
  p_msg_ c' - p_msg_ c = round_up (alignment_ c) n
  /\ msg_size_ c' = add64 (msg_size_ c) (round_up (alignment_ c) n)
  /\ (0 <= msg_size_ c ->
      msg_size_ c + round_up (alignment_ c) n <= SIZE_MAX ->
      msg_size_ c' - msg_size_ c = round_up (alignment_ c) n).
Proof.
  intros Hq Hn Hr H. apply operator_add_assign_Some in H. subst c'.
  cbn [p_msg_ msg_size_]. rewrite (getAlignedSize_round_up c n Hq Hn Hr).
  split; [lia | split; [reflexivity |]].
  intros Hm Hs. unfold add64. rewrite to_size_t_small.
  - lia.
  - pose proof (round_up_bounds (alignment_ c) n ltac:(lia)).
    unfold SIZE_MAX in Hs. lia.
Qed.

(** Quantum 4: requests of 1, 2, 3 and 4 bytes advance by 4, one of 5 by 8. *)
Lemma alignment_rounding_witness :
  let c := Context_new 0 16 4 in
  advances_by c 1 4 /\ advances_by c 2 4 /\ advances_by c 3 4
  /\ advances_by c 4 4 /\ advances_by c 5 8.
Proof.
  intros c. unfold advances_by. repeat apply conj.
  all: match goal with
       | |- exists c', operator_add_assign true ?c0 ?n = Some c' /\ _ =>
           eexists; split; [reflexivity |];
           match goal with
           | |- p_msg_ ?c' - _ = _ /\ _ =>
               destruct (alignment_rounding true c0 c' n) as (Hp & _ & Hm);
               [ cbn; lia | lia | cbn; lia | reflexivity
               | split; [exact Hp | apply Hm; cbn; unfold SIZE_MAX; lia] ]
           end
       end.
Defined.

(** The claim as stated fails for a request of 2^32 bytes: the advance is
    accepted and the cursor does not move, where [ceil(n / q) * q] is 2^32. *)
Lemma alignment_rounding_wraps :
  let c := context_ (PackBuffer_unbounded 0 4) in
  operator_add_assign true c (2 ^ 32) = Some c
  /\ round_up (alignment_ c) (2 ^ 32) = 2 ^ 32
  /\ ~ (forall c', operator_add_assign true c (2 ^ 32) = Some c' ->
        msg_size_ c' - msg_size_ c = round_up (alignment_ c) (2 ^ 32)).
Proof.
  intros c.
  assert (E : operator_add_assign true c (2 ^ 32) = Some c) by (vm_compute; reflexivity).
  split; [exact E | split; [vm_compute; reflexivity |]].
  intros H. specialize (H c E). vm_compute in H. discriminate.
Qed.

(** C3. With exceptions enabled, on a cursor of capacity 6 and quantum 4 at
    offset 4, [operator +=] of one byte is accepted, because the guard
    compares the request before rounding, and moves the offset to 8, past
    the capacity.  Two successful [put] calls reach it: a 4-byte scalar and
    a 1-byte scalar; afterwards [getDataSize()] is 8 and [getBufferSize()]
    has wrapped around. *)
Theorem advance_guard_before_rounding :
  let c := {| buf_size_ := 6; p_msg_ := 0; msg_size_ := 4; alignment_ := 4 |} in
  let b0 : Buffer := (PackBuffer_new 0 6 4, mem0) in
  operator_add_assign true c 1
    = Some {| buf_size_ := 6; p_msg_ := 4; msg_size_ := 8; alignment_ := 4 |}
  /\ msg_size_ c + getAlignedSize c 1 > buf_size_ c
  /\ exists b1 b2,
       PackBuffer_put true (TTrivial 4) (repr_le 7) b0 = Normal true b1
       /\ PackBuffer_put true (TTrivial 1) (repr_le 65) b1 = Normal true b2
       /\ getDataSize (fst b2) = 8
       /\ buf_size_ (context_ (fst b2)) = 6
       /\ getBufferSize (fst b2) = 2 ^ 64 - 2.
Proof.
  intros c b0. split; [reflexivity | split; [reflexivity |]].
  eexists. eexists. split; [reflexivity |]. split; [reflexivity |].
  repeat split.
Qed.

(** ** A packing session *)

(** C8. On a buffer of capacity 16 with quantum 4: [put] of the [int32_t] 7
    succeeds and [getDataSize()] is 4; [put] of the [int32_t] 9 succeeds
    and [getDataSize()] is 8; [put("hello")], 6 bytes with the terminator,
    succeeds and [getDataSize()] is 16; one more [put] of an [int32_t]
    fails and [getDataSize()] is still 16. *)
Theorem scenario_capacity_16 (exc : bool) (_pMsg : Z) (m : Memory) (x : bytes) :
  let b0 : Buffer := (PackBuffer_new _pMsg 16 4, m) in
  exists b1 b2 b3 : Buffer,
    PackBuffer_put exc int32_t (repr_le 7) b0 = Normal true b1
    /\ getDataSize (fst b1) = 4
    /\ PackBuffer_put exc int32_t (repr_le 9) b1 = Normal true b2
    /\ getDataSize (fst b2) = 8
    /\ getTypeSize_cstr hello = 6
    /\ PackBuffer_put_cstr exc (Some hello) b2 = Normal true b3
    /\ getDataSize (fst b3) = 16
    /\ PackBuffer_put exc int32_t x b3 = Normal false b3
    /\ getDataSize (fst b3) = 16.
Proof.
  intros b0.
  pose (at_ := fun (p n : Z) (m' : Memory) =>
          ({| p_buf_ := _pMsg;
              context_ := {| buf_size_ := 16; p_msg_ := p; msg_size_ := n;
                             alignment_ := 4 |} |}, m') : Buffer).
  exists (at_ (_pMsg + 4) 4 (std_copy (repr_le 7) 4 _pMsg m)).
  exists (at_ (_pMsg + 4 + 4) 8
            (std_copy (repr_le 9) 4 (_pMsg + 4) (std_copy (repr_le 7) 4 _pMsg m))).
  exists (at_ (_pMsg + 4 + 4 + 8) 16
            (std_copy (c_str hello) 6 (_pMsg + 4 + 4)
               (std_copy (repr_le 9) 4 (_pMsg + 4) (std_copy (repr_le 7) 4 _pMsg m)))).
  destruct exc; repeat split.
Qed.

(** ** Calls that find room *)

Lemma buffer_size_in_bounds c :
  in_bounds c -> buffer_size c = buf_size_ c - msg_size_ c.
Proof.
  intros (_ & Hm & Hb). unfold buffer_size, sub64, SIZE_MAX in *.
  apply to_size_t_small. lia.
Qed.

Lemma round_up_count q : 0 < q < 2 ^ 32 -> round_up q sizeof_size_t < 2 ^ 32.
Proof.
  intros Hq. destruct (Z_le_gt_dec q 8) as [Hs | Hl].
  - pose proof (round_up_bounds q sizeof_size_t ltac:(lia)). unfold sizeof_size_t in *. lia.
  - unfold round_up, ceil_div, sizeof_size_t.
    replace ((8 + q - 1) / q) with 1; [lia |].
    apply Z.div_unique with (r := 7); lia.
Qed.

Section Room.

Variable exc : bool.

(** [operator +=] is accepted when the request itself fits. *)
Lemma advance_accepted c m n :
  in_bounds c -> 0 <= n -> msg_size_ c + n <= buf_size_ c ->
  advance exc n (c, m)
  = Normal tt ({| buf_size_ := buf_size_ c;
                  p_msg_ := p_msg_ c + getAlignedSize c n;
                  msg_size_ := add64 (msg_size_ c) (getAlignedSize c n);
                  alignment_ := alignment_ c |}, m).
Proof.
  intros (Hq & Hm & Hb) Hn Hfit. unfold advance, operator_add_assign. cbn [fst snd].
  unfold add64 at 1. unfold SIZE_MAX in Hb. rewrite to_size_t_small by lia.
  destruct (Z.ltb_spec (buf_size_ c) (msg_size_ c + n)); [lia |].
  rewrite andb_false_r. reflexivity.
Qed.

(** When the rounded request fits as well, the cursor stays in bounds. *)
Lemma advance_moved c m n :
  in_bounds c -> 0 <= n ->
  round_up (alignment_ c) n < 2 ^ 32 ->
  msg_size_ c + round_up (alignment_ c) n <= buf_size_ c ->
  advance exc n (c, m) = Normal tt (moved c (round_up (alignment_ c) n), m).
Proof.
  intros Hc Hn Hr Hfit.
  pose proof Hc as (Hq & Hm & Hb).
  pose proof (round_up_bounds (alignment_ c) n ltac:(lia)) as B.
  rewrite advance_accepted by (try assumption; lia).
  rewrite getAlignedSize_round_up by assumption.
  unfold moved, add64. unfold SIZE_MAX in Hb. rewrite to_size_t_small by lia.
  reflexivity.
Qed.

Lemma in_bounds_moved c a :
  in_bounds c -> 0 <= a -> msg_size_ c + a <= buf_size_ c -> in_bounds (moved c a).
Proof.
  unfold in_bounds, moved. cbn. lia.
Qed.

(** A scalar that fits, rounding included, is copied and the cursor moved. *)
Lemma put_trivial_moved c m n (v : bytes) :
  in_bounds c -> 0 <= n ->
  round_up (alignment_ c) n < 2 ^ 32 ->
  msg_size_ c + round_up (alignment_ c) n <= buf_size_ c ->
  put_trivial exc n v (c, m)
  = Normal true (moved c (round_up (alignment_ c) n), std_copy v n (buffer c) m).
Proof.
  intros Hc Hn Hr Hfit.
  pose proof Hc as (Hq & Hm & Hb).
  pose proof (round_up_bounds (alignment_ c) n ltac:(lia)) as B.
  unfold put_trivial, if_fits, getTypeSize_trivial. cbn [fst].
  rewrite buffer_size_in_bounds by assumption.
  destruct (Z.leb_spec n (buf_size_ c - msg_size_ c)); [| lia].
  unfold bind at 1 2. unfold copy_to_buffer, copy_to. cbn [fst snd].
  rewrite advance_moved by assumption. reflexivity.
Qed.

Lemma put_count_moved c m k :
  in_bounds c ->
  msg_size_ c + round_up (alignment_ c) sizeof_size_t <= buf_size_ c ->
  put_count exc k (c, m)
  = Normal tt (moved c (round_up (alignment_ c) sizeof_size_t),
               std_copy (repr_le k) sizeof_size_t (buffer c) m).
Proof.
  intros Hc Hfit. unfold put_count, bind.
  rewrite put_trivial_moved; try assumption.
  - reflexivity.
  - unfold sizeof_size_t. lia.
  - apply round_up_count. apply Hc.
Qed.

End Room.

(** ** The array overload *)

(** C6. The array overload of [put] cannot pack an array through a
    [PackBuffer].  Its body asks the context for [size()] and [data()],
    which [PackBuffer::Context] does not declare, where the
    pointer-and-length overload asks for [buffer_size()] and [buffer()],
    which it does: for an array of three [int32_t] the overload has no
    instantiation, so no length field and no element is written.  The size
    it would compare, [dataLen * sizeof(T)], leaves out the length field
    that the pointer-and-length overload counts for the same bytes; that
    overload, on a buffer of 32 bytes with quantum 4, writes the count and
    then the twelve bytes of the elements. *)
Theorem array_put_not_instantiated (exc : bool) :
  let a : bytes := vector_data 4 [repr_le 1; repr_le 2; repr_le 3] in
  let c := Context_new 0 32 4 in
  put_array exc 4 a 3 = None
  /\ Context_lookup "size" = None
  /\ Context_lookup "data" = None
  /\ Context_lookup "buffer_size" = Some buffer_size
  /\ Context_lookup "buffer" = Some buffer
  /\ getTypeSize_array 4 3 = 12
  /\ getTypeSize_span 4 3 = sizeof_size_t + getTypeSize_array 4 3
  /\ put_span exc 4 (Some a) 3 (c, mem0)
     = Normal true (moved c 20,
                    std_copy a 12 8 (std_copy (repr_le 3) sizeof_size_t 0 mem0)).
Proof.
  intros a c.
  split; [reflexivity |]. split; [reflexivity |]. split; [reflexivity |].
  split; [reflexivity |]. split; [reflexivity |]. split; [reflexivity |].
  split; [reflexivity |].
  destruct exc; reflexivity.
Qed.

(** ** The offset stays a multiple of the quantum *)

Section Quantum.

Variable exc : bool.
Variable q : Z.
Hypothesis q_pos : 0 < q.
Hypothesis q_divides : (q | 2 ^ 32).

Lemma q_divides_64 : (q | 2 ^ 64).
Proof.
  apply Z.divide_trans with (m := 2 ^ 32); [exact q_divides |].
  exists (2 ^ 32). reflexivity.
Qed.

Lemma divide_to_uint32 a : (q | a) -> (q | to_uint32 a).
Proof.
  intros H. unfold to_uint32. rewrite Z.mod_eq by discriminate.
  apply Z.divide_sub_r; [exact H |].
  apply Z.divide_mul_l. exact q_divides.
Qed.

Lemma divide_to_size_t a : (q | a) -> (q | to_size_t a).
Proof.
  intros H. unfold to_size_t. rewrite Z.mod_eq by discriminate.
  apply Z.divide_sub_r; [exact H |].
  apply Z.divide_mul_l. exact q_divides_64.
Qed.

Lemma q_small : 0 < q < 2 ^ 32 \/ q = 2 ^ 32.
Proof.
  pose proof (Z.divide_pos_le q (2 ^ 32) ltac:(reflexivity) q_divides). lia.
Qed.

(** Every rounded size is a multiple of the quantum, wrapped or not. *)
Lemma getAlignedSize_divide c n : alignment_ c = q -> (q | getAlignedSize c n).
Proof.
  intros Hq. unfold getAlignedSize. cbv zeta. rewrite Hq.
  apply divide_to_uint32.
  destruct q_small as [Hs | ->].
  - rewrite (to_uint32_small q) by lia. apply Z.divide_factor_r.
  - change (to_uint32 (2 ^ 32)) with 0. rewrite Z.mul_0_r. apply Z.divide_0_r.
Qed.

Lemma preserves_ret {A : Type} (a : A) : preserves q (ret a).
Proof. intros s H. exact H. Qed.

Lemma preserves_bind {A B : Type} (f : M A) (g : A -> M B) :
  preserves q f -> (forall a, preserves q (g a)) -> preserves q (bind f g).
Proof.
  intros Hf Hg s H. unfold bind. specialize (Hf s H).
  destruct (f s) as [a s' | s' |]; cbn in *.
  - apply Hg. exact Hf.
  - exact Hf.
  - exact I.
Qed.

Lemma preserves_undefined {A : Type} : preserves q (@undefined A).
Proof. intros s H. exact I. Qed.

Lemma preserves_copy_to_buffer src len : preserves q (copy_to_buffer src len).
Proof. intros s H. exact H. Qed.

Lemma preserves_advance n : preserves q (advance exc n).
Proof.
  intros [c m] (Hq & Hd & Hr). unfold advance. cbn [fst snd].
  destruct (operator_add_assign exc c n) as [c' |] eqn:E.
  - apply operator_add_assign_Some in E. subst c'. cbn.
    split; [exact Hq | split].
    + apply divide_to_size_t. apply Z.divide_add_r; [exact Hd |].
      apply getAlignedSize_divide. exact Hq.
    + apply to_size_t_range.
  - cbn. split; [exact Hq | split; assumption].
Qed.

Lemma preserves_if_fits n body : preserves q body -> preserves q (if_fits n body).
Proof.
  intros Hb s H. unfold if_fits.
  destruct (n <=? buffer_size (fst s)).
  - apply preserves_bind; [exact Hb | intros _; apply preserves_ret | exact H].
  - exact H.
Qed.

Lemma preserves_if_nonempty {A : Type} (c : list A) body :
  preserves q body -> preserves q (if_nonempty c body).
Proof.
  intros Hb. unfold if_nonempty. destruct (0 <? size c).
  - exact Hb.
  - apply preserves_ret.
Qed.

Lemma preserves_put_trivial n v : preserves q (put_trivial exc n v).
Proof.
  apply preserves_if_fits. apply preserves_bind.
  - apply preserves_copy_to_buffer.
  - intros _. apply preserves_advance.
Qed.

Lemma preserves_put_count k : preserves q (put_count exc k).
Proof.
  apply preserves_bind; [apply preserves_put_trivial | intros _; apply preserves_ret].
Qed.

Lemma preserves_put_chars n p : preserves q (put_chars exc n p).
Proof.
  apply preserves_if_fits. apply preserves_bind.
  - destruct (n <? 0); [apply preserves_undefined | apply preserves_copy_to_buffer].
  - intros _. apply preserves_advance.
Qed.

Lemma preserves_put_cstr str : preserves q (put_cstr exc str).
Proof.
  destruct str as [text |]; [apply preserves_put_chars | apply preserves_ret].
Qed.

Lemma preserves_put_span n p len : preserves q (put_span exc n p len).
Proof.
  destruct p as [p |]; [| apply preserves_ret].
  apply preserves_if_fits. apply preserves_bind; [apply preserves_put_count |].
  intros _. apply preserves_bind; [apply preserves_copy_to_buffer |].
  intros _. apply preserves_advance.
Qed.

Lemma preserves_put_each {A : Type} (put_elem : A -> M bool) (c : list A) :
  (forall ve, preserves q (put_elem ve)) -> preserves q (put_each put_elem c).
Proof.
  intros He. induction c as [| ve c IH]; cbn [put_each].
  - apply preserves_ret.
  - apply preserves_bind; [apply He | intros _; exact IH].
Qed.

Lemma preserves_copy_elements T (c : list (value T)) : preserves q (copy_elements T c).
Proof.
  unfold copy_elements.
  destruct (is_trivial T); [apply preserves_copy_to_buffer | apply preserves_undefined].
Qed.

Lemma preserves_sequence (k : Z) {A : Type} (put_elem : A -> M bool) (c : list A) n :
  (forall ve, preserves q (put_elem ve)) ->
  preserves q (if_nonempty c (if_fits n (put_count exc k ;; put_each put_elem c))).
Proof.
  intros He. apply preserves_if_nonempty, preserves_if_fits, preserves_bind.
  - apply preserves_put_count.
  - intros _. apply preserves_put_each. exact He.
Qed.

Lemma preserves_put (t : ty) : forall v : value t, preserves q (put exc t v).
Proof.
  induction t as [n | | | T IH | T IH | K IH | K IHK V IHV | K IHK V IHV
                  | K IH | K IHK V IHV]; intros v; cbn [put].
  - apply preserves_put_trivial.
  - apply preserves_put_cstr.
  - apply preserves_put_chars.
  - apply preserves_if_nonempty, preserves_if_fits, preserves_bind.
    + apply preserves_put_count.
    + intros _. apply preserves_bind; [apply preserves_copy_elements |].
      intros _. apply preserves_advance.
  - apply preserves_sequence. exact IH.
  - apply preserves_sequence. exact IH.
  - apply preserves_if_fits, preserves_bind; [apply IHK |].
    intros _. apply preserves_bind; [apply IHV | intros _; apply preserves_ret].
  - apply preserves_sequence. intros ve.
    apply preserves_bind; [apply IHK | intros _; apply IHV].
  - apply preserves_sequence. exact IH.
  - apply preserves_sequence. intros ve.
    apply preserves_bind; [apply IHK | intros _; apply IHV].
Qed.

Lemma preserves_reset :
  preserves q (fun s =>
    match operator_sub_assign exc (fst s) (msg_size_ (fst s)) with
    | Some c' => Normal tt (c', snd s)
    | None => Throw s
    end).
Proof.
  intros [c m] (Hq & Hd & Hr). cbn [fst snd]. unfold operator_sub_assign.
  destruct (exc && (msg_size_ c <? msg_size_ c)); cbn.
  - split; [exact Hq | split; assumption].
  - split; [exact Hq | split].
    + apply divide_to_size_t. apply Z.divide_sub_r; [exact Hd |].
      apply getAlignedSize_divide. exact Hq.
    + apply to_size_t_range.
Qed.

End Quantum.

(** ** Sessions: any sequence of [put] and [reset] calls *)

Lemma with_context_leaves (q : Z) {A : Type} (f : M A) (b b' : Buffer) :
  preserves q f ->
  aligned q (context_ (fst b)) ->
  leaves (with_context f b) b' ->
  aligned q (context_ (fst b')).
Proof.
  intros Hf Hb. unfold with_context. specialize (Hf (context_ (fst b), snd b) Hb).
  destruct (f (context_ (fst b), snd b)) as [a s | s |]; cbn in *.
  - intros <-. exact Hf.
  - intros <-. exact Hf.
  - intros [].
Qed.

Lemma step_aligned (exc : bool) (q : Z) (b b' : Buffer) :
  0 < q -> (q | 2 ^ 32) ->
  step exc b b' -> aligned q (context_ (fst b)) -> aligned q (context_ (fst b')).
Proof.
  intros Hq Hd Hstep Hb.
  destruct Hstep as [t v b' H | str b' H | n p len b' H | b' H];
    refine (with_context_leaves q _ b b' _ Hb H).
  - apply preserves_put; assumption.
  - apply preserves_put_cstr; assumption.
  - apply preserves_put_span; assumption.
  - apply preserves_reset; assumption.
Qed.

Lemma reachable_aligned (exc : bool) (q : Z) (b : Buffer) :
  0 < q -> (q | 2 ^ 32) ->
  reachable exc q b -> aligned q (context_ (fst b)).
Proof.
  intros Hq Hd Hr. induction Hr as [p n m | b b' _ IH Hstep].
  - unfold aligned. cbn [fst context_ PackBuffer_new Context_new alignment_ msg_size_].
    split; [reflexivity | split; [apply Z.divide_0_r | split; [lia | reflexivity]]].
  - exact (step_aligned exc q b b' Hq Hd Hstep IH).
Qed.

(** [reset()] from an offset that 32 bits hold. *)
Lemma reset_to_zero (exc : bool) (q : Z) (b : Buffer) :
  0 < q < 2 ^ 32 ->
  aligned q (context_ (fst b)) ->
  getDataSize (fst b) < 2 ^ 32 ->
  exists b', reset exc b = Normal tt b' /\ getDataSize (fst b') = 0.
Proof.
  intros Hq (Ha & Hd & Hr) Hlt. destruct b as [[p c] m].
  unfold getDataSize in Hlt. cbn [fst snd context_] in *.
  unfold reset, with_context. cbn [fst snd context_ p_buf_].
  unfold operator_sub_assign. rewrite Z.ltb_irrefl, andb_false_r.
  rewrite getAlignedSize_round_up; rewrite ?Ha, ?round_up_fixed; try lia; try assumption.
  eexists. split; [reflexivity |].
  unfold getDataSize. cbn. unfold sub64. rewrite Z.sub_diag. reflexivity.
Qed.

(** C9. With a power-of-two quantum that [uint32_t] holds, after any
    sequence of [put] and [reset] calls on a fresh buffer, calls that throw
    included, [getDataSize()] is an exact multiple of the quantum; and
    whenever that offset is below 2^32, [reset()] returns it to zero. *)
Theorem offset_multiple_of_quantum (exc : bool) (k : Z) (b : Buffer) :
  0 <= k <= 31 ->
  reachable exc (2 ^ k) b ->
  getDataSize (fst b) mod 2 ^ k = 0
  /\ (getDataSize (fst b) < 2 ^ 32 ->
      exists b', reset exc b = Normal tt b' /\ getDataSize (fst b') = 0).
Proof.
  intros Hk Hr.
  assert (Hpos : 0 < 2 ^ k) by (apply Z.pow_pos_nonneg; lia).
  assert (Hlt : 2 ^ k < 2 ^ 32) by (apply Z.pow_lt_mono_r; lia).
  assert (Hdiv : (2 ^ k | 2 ^ 32)).
  { exists (2 ^ (32 - k)). rewrite <- Z.pow_add_r by lia. f_equal. lia. }
  pose proof (reachable_aligned exc (2 ^ k) b Hpos Hdiv Hr) as Hal.
  split.
  - apply Z.mod_divide; [lia |]. apply Hal.
  - intros Hsmall. apply (reset_to_zero exc (2 ^ k)); [lia | exact Hal | exact Hsmall].
Qed.

Lemma leaves_Normal {A : Type} (o : outcome Buffer A) (r : A) (b' : Buffer) :
  o = Normal r b' -> leaves o b'.
Proof. intros ->. reflexivity. Qed.

(** Three [put] calls lead to [session_3]. *)
Lemma session_reachable : reachable true (2 ^ 2) session_3.
Proof.
  apply reachable_step with (b := session_2);
    [apply reachable_step with (b := session_1);
     [apply reachable_step with (b := (PackBuffer_new 0 64 (2 ^ 2), mem0)) |] |].
  - apply reachable_new.
  - apply step_put with (t := int32_t) (v := repr_le 7).
    apply leaves_Normal with (r := true). reflexivity.
  - apply step_put with (t := TString) (v := hello).
    apply leaves_Normal with (r := true). reflexivity.
  - apply step_put with (t := TList int32_t) (v := [repr_le 1; repr_le 2]).
    apply leaves_Normal with (r := true). reflexivity.
Qed.

(** After the three calls the offset is 28, and [reset()] returns it to
    zero. *)
Lemma offset_multiple_of_quantum_witness :
  getDataSize (fst session_3) = 28
  /\ getDataSize (fst session_3) mod 2 ^ 2 = 0
  /\ (getDataSize (fst session_3) < 2 ^ 32 ->
      exists b', reset true session_3 = Normal tt b' /\ getDataSize (fst b') = 0).
Proof.
  split; [reflexivity |].
  apply (offset_multiple_of_quantum true 2 session_3).
  - lia.
  - exact session_reachable.
Defined.

(** The claim as stated fails beyond 32 bits: a session reaches the offset
    2^32 with one [put] of 2^32 - 8 bytes, and [reset()] leaves it there. *)
Lemma reset_beyond_32_bits :
  reachable true 4 large_session
  /\ getDataSize (fst large_session) = 2 ^ 32
  /\ exists b', reset true large_session = Normal tt b'
                /\ getDataSize (fst b') = 2 ^ 32
                /\ getDataSize (fst b') <> 0.
Proof.
  split; [| split].
  - apply reachable_step with (b := (PackBuffer_new 0 SIZE_MAX 4, mem0)).
    + apply reachable_new.
    + apply step_put_span with (sizeof_T := 1) (_buffer := Some (fun _ => 1))
                               (dataLen := 2 ^ 32 - 8).
      apply leaves_Normal with (r := true). reflexivity.
  - reflexivity.
  - exists large_session.
    split; [reflexivity | split; [reflexivity | discriminate]].
Qed.

(** ** What a successful [put] advances by *)

Lemma sum_of_nil {A : Type} (f : A -> Z) : sum_of f [] = 0.
Proof. reflexivity. Qed.

Lemma sum_of_cons {A : Type} (f : A -> Z) (x : A) (l : list A) :
  sum_of f (x :: l) = f x + sum_of f l.
Proof. reflexivity. Qed.

Lemma sum_of_nonneg {A : Type} (f : A -> Z) (l : list A) :
  (forall x, In x l -> 0 <= f x) -> 0 <= sum_of f l.
Proof.
  induction l as [| x l IH]; intros H; rewrite ?sum_of_nil, ?sum_of_cons.
  - lia.
  - pose proof (H x (or_introl eq_refl)).
    pose proof (IH (fun y Hy => H y (or_intror Hy))). lia.
Qed.

Lemma sum_of_le {A : Type} (f g : A -> Z) (l : list A) :
  (forall x, In x l -> f x <= g x) -> sum_of f l <= sum_of g l.
Proof.
  induction l as [| x l IH]; intros H; rewrite ?sum_of_nil, ?sum_of_cons.
  - lia.
  - pose proof (H x (or_introl eq_refl)).
    pose proof (IH (fun y Hy => H y (or_intror Hy))). lia.
Qed.

Lemma sum_of_ext {A : Type} (f g : A -> Z) (l : list A) :
  (forall x, In x l -> f x = g x) -> sum_of f l = sum_of g l.
Proof.
  induction l as [| x l IH]; intros H; rewrite ?sum_of_nil, ?sum_of_cons.
  - reflexivity.
  - rewrite (H x (or_introl eq_refl)), (IH (fun y Hy => H y (or_intror Hy))).
    reflexivity.
Qed.

Lemma sum_of_In {A : Type} (f : A -> Z) (l : list A) (x : A) :
  (forall y, In y l -> 0 <= f y) -> In x l -> f x <= sum_of f l.
Proof.
  induction l as [| y l IH]; intros H Hin; rewrite ?sum_of_nil, ?sum_of_cons.
  - destruct Hin.
  - pose proof (H y (or_introl eq_refl)).
    pose proof (sum_of_nonneg f l (fun z Hz => H z (or_intror Hz))).
    destruct Hin as [-> | Hin].
    + lia.
    + pose proof (IH (fun z Hz => H z (or_intror Hz)) Hin). lia.
Qed.

(** The element-by-element size does not wrap when the sum is small. *)
Lemma getTypeSize_each_sum {A : Type} (elem : A -> Z) (c : list A) (a : Z) :
  (forall ve, In ve c -> 0 <= elem ve) ->
  0 <= a -> a + sum_of elem c < 2 ^ 64 ->
  fold_left (fun typeSize ve => add64 typeSize (elem ve)) c a = a + sum_of elem c.
Proof.
  revert a. induction c as [| ve c IH]; intros a H Ha Hlt;
    rewrite ?sum_of_nil, ?sum_of_cons in *; cbn [fold_left].
  - lia.
  - pose proof (H ve (or_introl eq_refl)) as H0.
    pose proof (sum_of_nonneg elem c (fun z Hz => H z (or_intror Hz))) as H1.
    unfold add64 at 2. rewrite to_size_t_small by lia.
    rewrite IH; [lia | intros z Hz; apply H; right; exact Hz | lia | lia].
Qed.

(** Which overload computes the size does not matter for elements that
    are counted as they are written. *)
Lemma getTypeSize_sequence (T : ty) (c : list (value T)) :
  counted T = true ->
  (if is_trivial T then getTypeSize_closed (sizeof T) (size c)
   else getTypeSize_each (getTypeSize T) c)
  = getTypeSize_each (getTypeSize T) c.
Proof.
  destruct T as [n | | | | | | | | |]; cbn [is_trivial counted];
    try reflexivity; try discriminate.
  intros _. cbn [sizeof]. rewrite getTypeSize_closed_unfold. unfold getTypeSize_each.
  change sizeof_size_t with (to_size_t sizeof_size_t) at 2.
  symmetry. apply (getTypeSize_each_constant n c sizeof_size_t).
Qed.

Lemma getTypeSize_keyed (K V : ty) (c : list (value K * value V)) :
  counted_kv K V = true ->
  (if is_trivial K && is_trivial V
   then getTypeSize_closed_kv (sizeof K) (sizeof V) (size c)
   else getTypeSize_each_kv (getTypeSize K) (getTypeSize V) c)
  = getTypeSize_each_kv (getTypeSize K) (getTypeSize V) c.
Proof.
  unfold counted_kv.
  destruct K as [nk | | | | | | | | |]; cbn [is_trivial counted andb negb orb];
    try reflexivity;
    destruct V as [nv | | | | | | | | |]; cbn [is_trivial counted andb negb orb];
    try reflexivity; try discriminate.
  intros _. cbn [sizeof]. rewrite getTypeSize_closed_kv_unfold. unfold getTypeSize_each_kv.
  change sizeof_size_t with (to_size_t sizeof_size_t) at 2.
  symmetry. apply (getTypeSize_each_kv_constant nk nv c sizeof_size_t).
Qed.

Lemma getTypeSize_each_kv_sum {A B : Type} (key : A -> Z) (val : B -> Z)
    (c : list (A * B)) :
  getTypeSize_each_kv key val c
  = getTypeSize_each (fun ve => add64 (key (fst ve)) (val (snd ve))) c.
Proof.
  unfold getTypeSize_each_kv, getTypeSize_each.
  generalize sizeof_size_t as a. induction c as [| ve c IH]; intros a; cbn [fold_left].
  - reflexivity.
  - rewrite IH. f_equal. unfold add64, to_size_t.
    rewrite Z.add_mod_idemp_l, Z.add_mod_idemp_r by discriminate.
    f_equal. lia.
Qed.

Lemma strlen_nonneg str : 0 <= strlen str.
Proof.
  induction str as [| ch rest IH]; cbn [strlen].
  - lia.
  - destruct (ch =? 0); lia.
Qed.

Lemma size_nonneg {A : Type} (l : list A) : 0 <= size l.
Proof. unfold size. lia. Qed.

Section Footprint.

Variable q : Z.
Hypothesis q_pos : 0 < q.

Lemma round_up_nonneg n : 0 <= n -> 0 <= round_up q n.
Proof. intros H. pose proof (round_up_bounds q n q_pos). lia. Qed.

Lemma round_up_unpadded n : (n mod q =? 0) = true -> round_up q n = n.
Proof.
  intros H. apply round_up_fixed; [exact q_pos |].
  apply Z.mod_divide; [lia |]. apply Z.eqb_eq. exact H.
Qed.

Lemma count_nonneg : 0 <= round_up q sizeof_size_t.
Proof. apply round_up_nonneg. unfold sizeof_size_t. lia. Qed.

Lemma footprint_nonneg (t : ty) : forall v : value t,
  packable t v = true -> 0 <= footprint q t v.
Proof.
  assert (Hseq : forall (A : Type) (fp : A -> Z) (pk : A -> bool) (c : list A),
             (forall ve, pk ve = true -> 0 <= fp ve) ->
             forallb pk c = true -> 0 <= round_up q sizeof_size_t + sum_of fp c).
  { intros A fp pk c H Hall. pose proof count_nonneg.
    rewrite forallb_forall in Hall.
    pose proof (sum_of_nonneg fp c (fun ve Hin => H ve (Hall ve Hin))). lia. }
  assert (Hkv : forall (K V : ty),
             (forall v : value K, packable K v = true -> 0 <= footprint q K v) ->
             (forall v : value V, packable V v = true -> 0 <= footprint q V v) ->
             forall ve : value K * value V,
               packable K (fst ve) && packable V (snd ve) = true ->
               0 <= footprint q K (fst ve) + footprint q V (snd ve)).
  { intros K V IHK IHV ve Hve. apply andb_prop in Hve. destruct Hve as [HK HV].
    specialize (IHK (fst ve) HK). specialize (IHV (snd ve) HV). lia. }
  induction t as [n | | | T IH | T IH | K IH | K IHK V IHV | K IHK V IHV
                  | K IH | K IHK V IHV]; intros v Hp;
    cbn [value] in v; cbn [footprint packable] in *.
  - apply round_up_nonneg. apply Z.ltb_lt in Hp. lia.
  - apply round_up_nonneg. pose proof (strlen_nonneg (chars v)). lia.
  - apply round_up_nonneg. pose proof (size_nonneg v). lia.
  - apply andb_prop in Hp as [Hp Hn]. apply andb_prop in Hp as [_ Hs].
    apply Z.ltb_lt in Hs.
    pose proof count_nonneg. pose proof (size_nonneg v).
    assert (0 <= round_up q (size v * sizeof T)) by (apply round_up_nonneg; nia).
    lia.
  - apply andb_prop in Hp as [_ Hp]. exact (Hseq _ _ _ v IH Hp).
  - apply andb_prop in Hp as [_ Hp]. exact (Hseq _ _ _ v IH Hp).
  - exact (Hkv K V IHK IHV v Hp).
  - apply andb_prop in Hp as [_ Hp]. exact (Hseq _ _ _ v (Hkv K V IHK IHV) Hp).
  - apply andb_prop in Hp as [_ Hp]. exact (Hseq _ _ _ v IH Hp).
  - apply andb_prop in Hp as [_ Hp]. exact (Hseq _ _ _ v (Hkv K V IHK IHV) Hp).
Qed.

(** The size of a container against its footprint, from the same facts
    about its elements. *)
Lemma sizes_sequence {A : Type} (elem fp : A -> Z) (pk unp : A -> bool) (c : list A) :
  (forall ve, pk ve = true -> 0 <= fp ve) ->
  (forall ve, pk ve = true -> fp ve < 2 ^ 31 ->
     0 <= elem ve <= fp ve /\ (unp ve = true -> fp ve = elem ve)) ->
  forallb pk c = true ->
  round_up q sizeof_size_t + sum_of fp c < 2 ^ 31 ->
  0 <= getTypeSize_each elem c <= round_up q sizeof_size_t + sum_of fp c
  /\ ((sizeof_size_t mod q =? 0) && forallb unp c = true ->
      round_up q sizeof_size_t + sum_of fp c = getTypeSize_each elem c).
Proof.
  intros Hnn Helem Hall Hlt. rewrite forallb_forall in Hall.
  pose proof (round_up_bounds q sizeof_size_t q_pos) as B8.
  unfold getTypeSize_each. unfold sizeof_size_t in *.
  assert (Hfp : forall ve, In ve c -> 0 <= fp ve) by (intros; apply Hnn, Hall; assumption).
  pose proof (sum_of_nonneg fp c Hfp) as Hsum.
  assert (He : forall ve, In ve c ->
             0 <= elem ve <= fp ve /\ (unp ve = true -> fp ve = elem ve)).
  { intros ve Hin. apply Helem; [apply Hall; exact Hin |].
    pose proof (sum_of_In fp c ve Hfp Hin). lia. }
  pose proof (sum_of_le elem fp c (fun ve Hin => proj2 (proj1 (He ve Hin)))) as Hle.
  pose proof (sum_of_nonneg elem c (fun ve Hin => proj1 (proj1 (He ve Hin)))) as Hge.
  rewrite getTypeSize_each_sum.
  - split; [lia |].
    intros Hu. apply andb_prop in Hu. destruct Hu as [H8 Hu].
    rewrite forallb_forall in Hu.
    rewrite (round_up_unpadded 8 H8).
    rewrite (sum_of_ext fp elem c); [reflexivity |].
    intros ve Hin. apply He; [exact Hin | apply Hu; exact Hin].
  - intros ve Hin. apply He. exact Hin.
  - lia.
  - lia.
Qed.

(** The same facts for an entry of a key/value container, from those about
    keys and values. *)
Lemma sizes_entry (K V : ty) :
  (forall v : value K, packable K v = true -> footprint q K v < 2 ^ 31 ->
     0 <= getTypeSize K v <= footprint q K v
     /\ (unpadded q K v = true -> footprint q K v = getTypeSize K v)) ->
  (forall v : value V, packable V v = true -> footprint q V v < 2 ^ 31 ->
     0 <= getTypeSize V v <= footprint q V v
     /\ (unpadded q V v = true -> footprint q V v = getTypeSize V v)) ->
  forall ve : value K * value V,
    packable K (fst ve) && packable V (snd ve) = true ->
    footprint q K (fst ve) + footprint q V (snd ve) < 2 ^ 31 ->
    0 <= add64 (getTypeSize K (fst ve)) (getTypeSize V (snd ve))
      <= footprint q K (fst ve) + footprint q V (snd ve)
    /\ (unpadded q K (fst ve) && unpadded q V (snd ve) = true ->
        footprint q K (fst ve) + footprint q V (snd ve)
        = add64 (getTypeSize K (fst ve)) (getTypeSize V (snd ve))).
Proof.
  intros IHK IHV ve Hve Hb. apply andb_prop in Hve as [HpK HpV].
  pose proof (footprint_nonneg K (fst ve) HpK).
  pose proof (footprint_nonneg V (snd ve) HpV).
  destruct (IHK (fst ve) HpK ltac:(lia)) as [BK EK].
  destruct (IHV (snd ve) HpV ltac:(lia)) as [BV EV].
  unfold add64. rewrite to_size_t_small by lia. split; [lia |].
  intros Hu. apply andb_prop in Hu as [HuK HuV].
  rewrite (EK HuK), (EV HuV). reflexivity.
Qed.

Lemma footprint_entry_nonneg (K V : ty) (ve : value K * value V) :
  packable K (fst ve) && packable V (snd ve) = true ->
  0 <= footprint q K (fst ve) + footprint q V (snd ve).
Proof.
  intros Hve. apply andb_prop in Hve as [HpK HpV].
  pose proof (footprint_nonneg K (fst ve) HpK).
  pose proof (footprint_nonneg V (snd ve) HpV). lia.
Qed.

(** The computed size of a packable value is at most its footprint, and is
    the footprint when no piece needs padding. *)
Lemma sizes (t : ty) : forall v : value t,
  packable t v = true ->
  footprint q t v < 2 ^ 31 ->
  0 <= getTypeSize t v <= footprint q t v
  /\ (unpadded q t v = true -> footprint q t v = getTypeSize t v).
Proof.
  induction t as [n | | | T IH | T IH | K IH | K IHK V IHV | K IHK V IHV
                  | K IH | K IHK V IHV]; intros v Hp Hlt;
    cbn [value] in v; cbn [footprint packable unpadded getTypeSize] in *.
  - apply Z.ltb_lt in Hp. pose proof (round_up_bounds q n q_pos).
    unfold getTypeSize_trivial. split; [lia |]. intros Hu. apply round_up_unpadded, Hu.
  - pose proof (strlen_nonneg (chars v)).
    pose proof (round_up_bounds q (strlen (chars v) + 1) q_pos).
    unfold getTypeSize_cstr, add64. rewrite to_size_t_small by lia.
    split; [lia |]. intros Hu. apply round_up_unpadded, Hu.
  - pose proof (size_nonneg v). pose proof (round_up_bounds q (size v + 1) q_pos).
    unfold getTypeSize_string, add64. rewrite to_size_t_small by lia.
    split; [lia |]. intros Hu. apply round_up_unpadded, Hu.
  - apply andb_prop in Hp as [Hp Hn]. apply andb_prop in Hp as [Ht Hs].
    apply Z.ltb_lt in Hs, Hn.
    pose proof (round_up_bounds q sizeof_size_t q_pos).
    rewrite Ht. unfold getTypeSize_closed, add64, mul64.
    remember (size v) as k eqn:Ek.
    pose proof (round_up_bounds q (k * sizeof T) q_pos).
    assert (0 < k * sizeof T) by nia.
    replace (sizeof T * k) with (k * sizeof T) by lia.
    unfold sizeof_size_t in *.
    rewrite (to_size_t_small (k * sizeof T)) by lia.
    rewrite to_size_t_small by lia.
    split; [lia |]. intros Hu. apply andb_prop in Hu as [H8 Hu].
    rewrite (round_up_unpadded 8 H8), (round_up_unpadded _ Hu). reflexivity.
  - apply andb_prop in Hp as [Hp Hall]. apply andb_prop in Hp as [_ Hcnt].
    rewrite getTypeSize_sequence by exact Hcnt.
    apply (sizes_sequence _ _ (packable T) (unpadded q T)); auto using footprint_nonneg.
  - apply andb_prop in Hp as [Hp Hall]. apply andb_prop in Hp as [_ Hcnt].
    rewrite getTypeSize_sequence by exact Hcnt.
    apply (sizes_sequence _ _ (packable K) (unpadded q K)); auto using footprint_nonneg.
  - exact (sizes_entry K V IHK IHV v Hp Hlt).
  - apply andb_prop in Hp as [_ Hall]. rewrite getTypeSize_each_kv_sum.
    apply (sizes_sequence _ _ (fun ve => packable K (fst ve) && packable V (snd ve))
                              (fun ve => unpadded q K (fst ve) && unpadded q V (snd ve)));
      auto using footprint_entry_nonneg, sizes_entry.
  - apply andb_prop in Hp as [Hp Hall]. apply andb_prop in Hp as [_ Hcnt].
    rewrite getTypeSize_sequence by exact Hcnt.
    apply (sizes_sequence _ _ (packable K) (unpadded q K)); auto using footprint_nonneg.
  - apply andb_prop in Hp as [Hp Hall]. apply andb_prop in Hp as [_ Hcnt].
    rewrite getTypeSize_keyed by exact Hcnt. rewrite getTypeSize_each_kv_sum.
    apply (sizes_sequence _ _ (fun ve => packable K (fst ve) && packable V (snd ve))
                              (fun ve => unpadded q K (fst ve) && unpadded q V (snd ve)));
      auto using footprint_entry_nonneg, sizes_entry.
Qed.

End Footprint.

Lemma moved_0 c : moved c 0 = c.
Proof. destruct c. unfold moved. cbn. rewrite !Z.add_0_r. reflexivity. Qed.

Lemma moved_moved c a b : moved (moved c a) b = moved c (a + b).
Proof. unfold moved. cbn. rewrite !Z.add_assoc. reflexivity. Qed.

Section Run.

Variable exc : bool.
Variable q : Z.

Lemma moves_by_bind {A B : Type} (f : M A) (g : M B) (a b : Z) :
  0 <= a -> 0 <= b ->
  moves_by q f a -> moves_by q g b -> moves_by q (f ;; g) (a + b).
Proof.
  intros Ha Hb Hf Hg c m Hc Hq Hfit. unfold bind.
  destruct (Hf c m Hc Hq ltac:(lia)) as (r & m1 & ->).
  destruct (Hg (moved c a) m1) as (r' & m2 & ->).
  - apply in_bounds_moved; [assumption | lia | lia].
  - exact Hq.
  - cbn. lia.
  - rewrite moved_moved. eauto.
Qed.

Lemma moves_by_put_each {A : Type} (put_elem : A -> M bool) (fp : A -> Z) (c : list A) :
  (forall ve, In ve c -> 0 <= fp ve) ->
  (forall ve, In ve c -> moves_by q (put_elem ve) (fp ve)) ->
  moves_by q (put_each put_elem c) (sum_of fp c).
Proof.
  induction c as [| ve c IH]; intros Hnn He; cbn [put_each sum_of fold_right].
  - intros c0 m _ _ _. rewrite moved_0. unfold ret. eauto.
  - fold (sum_of fp c). apply moves_by_bind.
    + apply Hnn. left. reflexivity.
    + apply sum_of_nonneg. intros z Hz. apply Hnn. right. exact Hz.
    + apply He. left. reflexivity.
    + apply IH; intros z Hz; [apply Hnn | apply He]; right; exact Hz.
Qed.

Lemma moves_by_put_count k :
  0 < q -> moves_by q (put_count exc k) (round_up q sizeof_size_t).
Proof.
  intros Hq c m Hc Ha Hfit. subst q.
  rewrite put_count_moved by assumption. eauto.
Qed.

(** The guard [n <= _ctx.buffer_size()] passes when the footprint fits. *)
Lemma if_fits_moves_by (n a : Z) (body : M unit) c m :
  in_bounds c -> alignment_ c = q -> n <= a -> msg_size_ c + a <= buf_size_ c ->
  moves_by q body a ->
  exists m', if_fits n body (c, m) = Normal true (moved c a, m').
Proof.
  intros Hc Hq Hn Hfit Hbody. unfold if_fits. cbn [fst].
  rewrite buffer_size_in_bounds by assumption.
  destruct (Z.leb_spec n (buf_size_ c - msg_size_ c)); [| lia].
  unfold bind. destruct (Hbody c m Hc Hq Hfit) as (r & m' & ->).
  unfold ret. eauto.
Qed.

Lemma container_moved {A : Type} (k n : Z) (put_elem : A -> M bool) (fp : A -> Z)
    (l : list A) c m :
  0 < q ->
  (0 <? size l) = true ->
  (forall ve, In ve l -> 0 <= fp ve) ->
  (forall ve, In ve l -> moves_by q (put_elem ve) (fp ve)) ->
  n <= round_up q sizeof_size_t + sum_of fp l ->
  in_bounds c -> alignment_ c = q ->
  msg_size_ c + (round_up q sizeof_size_t + sum_of fp l) <= buf_size_ c ->
  exists m',
    if_nonempty l (if_fits n (put_count exc k ;; put_each put_elem l)) (c, m)
    = Normal true (moved c (round_up q sizeof_size_t + sum_of fp l), m').
Proof.
  intros Hq Hne Hnn He Hn Hc Ha Hfit. unfold if_nonempty. rewrite Hne.
  apply if_fits_moves_by; try assumption.
  apply moves_by_bind.
  - apply count_nonneg. exact Hq.
  - apply sum_of_nonneg. exact Hnn.
  - apply moves_by_put_count. exact Hq.
  - apply moves_by_put_each; assumption.
Qed.

Lemma put_chars_moved (len : Z) (p : bytes) c m :
  in_bounds c -> alignment_ c = q ->
  0 < len -> round_up q len < 2 ^ 31 ->
  msg_size_ c + round_up q len <= buf_size_ c ->
  exists m',
    put_chars exc (to_int len) p (c, m) = Normal true (moved c (round_up q len), m').
Proof.
  intros Hc Ha Hlen Hlt Hfit. pose proof Hc as (Hq & _ & _). rewrite Ha in Hq.
  pose proof (round_up_bounds q len ltac:(lia)) as B.
  rewrite to_int_small by lia. unfold put_chars.
  rewrite to_size_t_small by lia.
  apply if_fits_moves_by; try assumption; [lia |].
  intros c0 m0 Hc0 Ha0 Hfit0. unfold bind.
  destruct (Z.ltb_spec len 0); [lia |]. unfold copy_to_buffer, copy_to. cbn [fst snd].
  rewrite advance_moved; rewrite ?Ha0; try assumption; try lia. eauto.
Qed.

(** An entry of a key/value container: the key, then the value. *)
Lemma moves_by_entry (K V : ty) (ve : value K * value V) :
  0 < q ->
  (forall (v : value K) c m,
     in_bounds c -> alignment_ c = q -> packable K v = true ->
     footprint q K v < 2 ^ 31 -> msg_size_ c + footprint q K v <= buf_size_ c ->
     exists m', put exc K v (c, m) = Normal true (moved c (footprint q K v), m')) ->
  (forall (v : value V) c m,
     in_bounds c -> alignment_ c = q -> packable V v = true ->
     footprint q V v < 2 ^ 31 -> msg_size_ c + footprint q V v <= buf_size_ c ->
     exists m', put exc V v (c, m) = Normal true (moved c (footprint q V v), m')) ->
  packable K (fst ve) && packable V (snd ve) = true ->
  footprint q K (fst ve) + footprint q V (snd ve) < 2 ^ 31 ->
  moves_by q (put exc K (fst ve) ;; put exc V (snd ve))
           (footprint q K (fst ve) + footprint q V (snd ve)).
Proof.
  intros Hq IHK IHV Hve Hlt. apply andb_prop in Hve as [HpK HpV].
  pose proof (footprint_nonneg q Hq K (fst ve) HpK).
  pose proof (footprint_nonneg q Hq V (snd ve) HpV).
  apply moves_by_bind; try assumption.
  - intros c0 m0 Hc0 Ha0 Hfit0.
    destruct (IHK (fst ve) c0 m0) as (m' & ->); eauto. lia.
  - intros c0 m0 Hc0 Ha0 Hfit0.
    destruct (IHV (snd ve) c0 m0) as (m' & ->); eauto. lia.
Qed.

(** A list, set or unordered set whose elements are packed in full. *)
Lemma sequence_moved (T : ty) (v : list (value T)) (k n : Z) c m :
  0 < q ->
  (forall (ve : value T) c m,
     in_bounds c -> alignment_ c = q -> packable T ve = true ->
     footprint q T ve < 2 ^ 31 ->
     msg_size_ c + footprint q T ve <= buf_size_ c ->
     exists m', put exc T ve (c, m) = Normal true (moved c (footprint q T ve), m')) ->
  (0 <? size v) = true -> forallb (packable T) v = true ->
  n <= round_up q sizeof_size_t + sum_of (footprint q T) v ->
  round_up q sizeof_size_t + sum_of (footprint q T) v < 2 ^ 31 ->
  in_bounds c -> alignment_ c = q ->
  msg_size_ c + (round_up q sizeof_size_t + sum_of (footprint q T) v) <= buf_size_ c ->
  exists m',
    if_nonempty v (if_fits n (put_count exc k ;; put_each (put exc T) v)) (c, m)
    = Normal true (moved c (round_up q sizeof_size_t + sum_of (footprint q T) v), m').
Proof.
  intros Hq0 IH Hn Hall Hsize Hlt Hc Ha Hfit.
  rewrite forallb_forall in Hall.
  pose proof (count_nonneg q Hq0) as B8.
  assert (Hnn : forall ve, In ve v -> 0 <= footprint q T ve)
    by (intros ve Hin; apply footprint_nonneg; auto).
  apply container_moved; try assumption.
  intros ve Hin c0 m0 Hc0 Ha0 Hfit0.
  pose proof (sum_of_In _ v ve Hnn Hin).
  destruct (IH ve c0 m0) as (m' & ->); eauto. lia.
Qed.

(** A map or unordered map whose entries are packed in full. *)
Lemma keyed_moved (K V : ty) (v : list (value K * value V)) (k n : Z) c m :
  0 < q ->
  (forall ve : value K * value V,
     packable K (fst ve) && packable V (snd ve) = true ->
     footprint q K (fst ve) + footprint q V (snd ve) < 2 ^ 31 ->
     moves_by q (put exc K (fst ve) ;; put exc V (snd ve))
              (footprint q K (fst ve) + footprint q V (snd ve))) ->
  (0 <? size v) = true ->
  forallb (fun ve => packable K (fst ve) && packable V (snd ve)) v = true ->
  let fp := fun ve : value K * value V =>
              footprint q K (fst ve) + footprint q V (snd ve) in
  n <= round_up q sizeof_size_t + sum_of fp v ->
  round_up q sizeof_size_t + sum_of fp v < 2 ^ 31 ->
  in_bounds c -> alignment_ c = q ->
  msg_size_ c + (round_up q sizeof_size_t + sum_of fp v) <= buf_size_ c ->
  exists m',
    if_nonempty v
      (if_fits n
         (put_count exc k ;;
          put_each (fun ve => put exc K (fst ve) ;; put exc V (snd ve)) v))
      (c, m)
    = Normal true (moved c (round_up q sizeof_size_t + sum_of fp v), m').
Proof.
  intros Hq0 He Hn Hall fp Hsize Hlt Hc Ha Hfit.
  rewrite forallb_forall in Hall.
  pose proof (count_nonneg q Hq0) as B8.
  assert (Hnn : forall ve, In ve v -> 0 <= fp ve)
    by (intros ve Hin; apply footprint_entry_nonneg; auto).
  apply container_moved; try assumption.
  intros ve Hin. pose proof (sum_of_In fp v ve Hnn Hin).
  apply He; [auto | fold (fp ve); lia].
Qed.

(** [put] of a packable value whose footprint fits moves the cursor by the
    footprint and succeeds. *)
Lemma put_moved (t : ty) : forall (v : value t) c m,
  in_bounds c -> alignment_ c = q ->
  packable t v = true ->
  footprint q t v < 2 ^ 31 ->
  msg_size_ c + footprint q t v <= buf_size_ c ->
  exists m', put exc t v (c, m) = Normal true (moved c (footprint q t v), m').
Proof.
  induction t as [n | | | T IH | T IH | K IH | K IHK V IHV | K IHK V IHV
                  | K IH | K IHK V IHV]; intros v c m Hc Ha Hp Hlt Hfit;
    pose proof Hc as (Hq & _ & _); rewrite Ha in Hq;
    assert (Hq0 : 0 < q) by lia;
    pose proof (sizes q Hq0 _ v Hp Hlt) as [[_ Hsize] _];
    pose proof (count_nonneg q Hq0) as B8;
    cbn [value] in v;
    cbn [footprint packable put] in *.
  - apply Z.ltb_lt in Hp.
    rewrite put_trivial_moved; rewrite ?Ha; try assumption; try lia. eauto.
  - unfold put_cstr, getTypeSize_cstr, add64.
    pose proof (strlen_nonneg (chars v)).
    pose proof (round_up_bounds q (strlen (chars v) + 1) Hq0).
    rewrite to_size_t_small by lia.
    apply put_chars_moved; try assumption; lia.
  - unfold put_string, getTypeSize_string, add64.
    pose proof (size_nonneg v). pose proof (round_up_bounds q (size v + 1) Hq0).
    rewrite to_size_t_small by lia.
    apply put_chars_moved; try assumption; lia.
  - apply andb_prop in Hp as [Hp Hn]. apply andb_prop in Hp as [Ht Hs].
    apply Z.ltb_lt in Hs. pose proof Hn as Hn'. apply Z.ltb_lt in Hn'.
    unfold if_nonempty. rewrite Hn.
    unfold copy_elements. rewrite Ht.
    remember (size v) as k eqn:Ek.
    pose proof (round_up_bounds q (k * sizeof T) Hq0).
    assert (Hkn : 0 <= k * sizeof T) by (apply Z.mul_nonneg_nonneg; lia).
    apply if_fits_moves_by; try assumption.
    apply moves_by_bind.
    + exact B8.
    + apply round_up_nonneg; [exact Hq0 | exact Hkn].
    + apply moves_by_put_count. exact Hq0.
    + intros c0 m0 Hc0 Ha0 Hfit0. unfold bind.
      unfold copy_to_buffer, copy_to. cbn [fst snd].
      unfold mul64. rewrite to_size_t_small by lia.
      rewrite advance_moved; rewrite ?Ha0; try assumption; try lia. eauto.
  - apply andb_prop in Hp as [Hp Hall]. apply andb_prop in Hp as [Hn _].
    apply sequence_moved; assumption.
  - apply andb_prop in Hp as [Hp Hall]. apply andb_prop in Hp as [Hn _].
    apply sequence_moved; assumption.
  - apply if_fits_moves_by; try assumption.
    replace (footprint q K (fst v) + footprint q V (snd v))
      with (footprint q K (fst v) + footprint q V (snd v) + 0) by lia.
    rewrite <- Z.add_assoc.
    apply andb_prop in Hp as [HpK HpV].
    pose proof (footprint_nonneg q Hq0 K (fst v) HpK).
    pose proof (footprint_nonneg q Hq0 V (snd v) HpV).
    apply moves_by_bind; try lia.
    + intros c0 m0 Hc0 Ha0 Hfit0.
      destruct (IHK (fst v) c0 m0) as (m' & ->); eauto. lia.
    + apply moves_by_bind; try lia.
      * intros c0 m0 Hc0 Ha0 Hfit0.
        destruct (IHV (snd v) c0 m0) as (m' & ->); eauto. lia.
      * intros c0 m0 _ _ _. rewrite moved_0. unfold ret. eauto.
  - apply andb_prop in Hp as [Hn Hall].
    apply keyed_moved; try assumption.
    intros ve Hve Hb. apply moves_by_entry; assumption.
  - apply andb_prop in Hp as [Hp Hall]. apply andb_prop in Hp as [Hn _].
    apply sequence_moved; assumption.
  - apply andb_prop in Hp as [Hp Hall]. apply andb_prop in Hp as [Hn _].
    apply keyed_moved; try assumption.
    intros ve Hve Hb. apply moves_by_entry; assumption.
Qed.

End Run.

(** For a scalar and for a string the footprint is the computed size
    rounded up to the quantum. *)
Lemma footprint_trivial (q n : Z) (v : bytes) :
  footprint q (TTrivial n) v = round_up q (getTypeSize (TTrivial n) v).
Proof. reflexivity. Qed.

Lemma footprint_string (q : Z) (_str : list Z) :
  size _str + 1 < 2 ^ 64 ->
  footprint q TString _str = round_up q (getTypeSize TString _str).
Proof.
  intros H. cbn [footprint getTypeSize]. unfold getTypeSize_string, add64.
  rewrite to_size_t_small by (pose proof (size_nonneg _str); lia). reflexivity.
Qed.

(** Whenever [put] of a scalar succeeds, the offset grows by the size
    rounded up to the quantum, room for the rounding or not. *)
Lemma put_scalar_advances_rounded (exc : bool) (n : Z) (v : bytes) (b b' : Buffer) :
  0 < alignment_ (context_ (fst b)) < 2 ^ 32 ->
  0 <= n ->
  round_up (alignment_ (context_ (fst b))) n < 2 ^ 32 ->
  PackBuffer_put exc (TTrivial n) v b = Normal true b' ->
  getDataSize (fst b')
  = add64 (getDataSize (fst b)) (round_up (alignment_ (context_ (fst b))) n).
Proof.
  intros Hq Hn Hr. destruct b as [[p c] m]. cbn [fst snd context_] in *.
  unfold PackBuffer_put, with_context. cbn [fst snd context_ p_buf_ put].
  unfold put_trivial, if_fits. cbn [fst].
  destruct (getTypeSize_trivial n <=? buffer_size c); [| discriminate].
  unfold bind, copy_to_buffer, copy_to, advance, ret. cbn [fst snd].
  destruct (operator_add_assign exc c n) as [c' |] eqn:E; [| discriminate].
  apply operator_add_assign_Some in E. subst c'.
  intros H. injection H as <-. unfold getDataSize. cbn [fst context_ msg_size_].
  rewrite getAlignedSize_round_up by assumption. reflexivity.
Qed.

(** C1. Let [q] be the quantum of a buffer whose cursor is in bounds, and
    [v] a packable value of any dispatched type (no empty container in it,
    vectors of trivial elements only, no [char *] elements where the size
    overload counts pointers) whose footprint (each separately written
    piece: scalar, string, count field, vector storage, rounded up to [q];
    for a scalar or a string the computed size rounded up) is below 2^31
    and within the remaining size.  Then [put(v)] succeeds and advances the
    cursor by exactly the footprint.  The footprint is never less than
    [getTypeSize(v)], and equals it when [q] divides the size of every
    piece. *)
Theorem put_advances_by_footprint (exc : bool) (q : Z) (t : ty) (v : value t)
    (b : Buffer) :
  in_bounds (context_ (fst b)) ->
  alignment_ (context_ (fst b)) = q ->
  packable t v = true ->
  footprint q t v < 2 ^ 31 ->
  footprint q t v <= getBufferSize (fst b) ->
  exists b',
    PackBuffer_put exc t v b = Normal true b'
    /\ getDataSize (fst b') - getDataSize (fst b) = footprint q t v
    /\ getTypeSize t v <= footprint q t v
    /\ (unpadded q t v = true ->
        getDataSize (fst b') - getDataSize (fst b) = getTypeSize t v).
Proof.
  intros Hc Ha Hp Hlt Hfit. destruct b as [[p c] m].
  unfold getBufferSize, getDataSize in *. cbn [fst snd context_] in *.
  rewrite buffer_size_in_bounds in Hfit by assumption.
  pose proof Hc as (Hq & _ & _). rewrite Ha in Hq.
  destruct (sizes q ltac:(lia) t v Hp Hlt) as [[_ Hsize] Hexact].
  destruct (put_moved exc q t v c m Hc Ha Hp Hlt ltac:(lia)) as (m' & Hput).
  unfold PackBuffer_put, with_context. cbn [fst snd context_ p_buf_]. rewrite Hput.
  eexists. split; [reflexivity |]. cbn [fst snd context_ moved msg_size_].
  split; [lia | split; [exact Hsize |]].
  intros Hu. rewrite <- (Hexact Hu). lia.
Qed.

(** Quantum 4, capacity 64: the two entries of [ages] take
    8 + (4 + 4) + (8 + 4) bytes, 2 more than the computed size; a list of
    two [int32_t] takes its computed size. *)
Lemma put_advances_by_footprint_witness :
  let b : Buffer := (PackBuffer_new 0 64 4, mem0) in
  let v : value (TList int32_t) := [repr_le 1; repr_le 2] in
  (footprint 4 (TMap TString int32_t) ages = 28
   /\ getTypeSize (TMap TString int32_t) ages = 26
   /\ exists b',
        PackBuffer_put true (TMap TString int32_t) ages b = Normal true b'
        /\ getDataSize (fst b') - getDataSize (fst b)
           = footprint 4 (TMap TString int32_t) ages
        /\ getTypeSize (TMap TString int32_t) ages
           <= footprint 4 (TMap TString int32_t) ages
        /\ (unpadded 4 (TMap TString int32_t) ages = true ->
            getDataSize (fst b') - getDataSize (fst b)
            = getTypeSize (TMap TString int32_t) ages))
  /\ (unpadded 4 (TList int32_t) v = true
      /\ getTypeSize (TList int32_t) v = 16
      /\ exists b',
           PackBuffer_put true (TList int32_t) v b = Normal true b'
           /\ getDataSize (fst b') - getDataSize (fst b) = footprint 4 (TList int32_t) v
           /\ getTypeSize (TList int32_t) v <= footprint 4 (TList int32_t) v
           /\ (unpadded 4 (TList int32_t) v = true ->
               getDataSize (fst b') - getDataSize (fst b)
               = getTypeSize (TList int32_t) v)).
Proof.
  intros b v.
  assert (Hb : in_bounds (context_ (fst b))).
  { unfold in_bounds, SIZE_MAX. cbn. lia. }
  split.
  - split; [reflexivity | split; [reflexivity |]].
    apply (put_advances_by_footprint true 4 (TMap TString int32_t) ages b Hb).
    + reflexivity.
    + reflexivity.
    + reflexivity.
    + vm_compute. discriminate.
  - split; [reflexivity | split; [reflexivity |]].
    apply (put_advances_by_footprint true 4 (TList int32_t) v b Hb).
    + reflexivity.
    + reflexivity.
    + reflexivity.
    + vm_compute. discriminate.
Defined.

(** The claim as stated fails already for a scalar: with quantum 4 a
    successful [put] of a 1-byte value advances the cursor by 4 bytes,
    more than the size computation reports. *)
Lemma put_advances_past_size :
  let b : Buffer := (PackBuffer_new 0 16 4, mem0) in
  exists b',
    PackBuffer_put true (TTrivial 1) (repr_le 65) b = Normal true b'
    /\ getDataSize (fst b') - getDataSize (fst b) = 4
    /\ getTypeSize (TTrivial 1) (repr_le 65) = 1
    /\ getDataSize (fst b') - getDataSize (fst b) <> getTypeSize (TTrivial 1) (repr_le 65)
    /\ getDataSize (fst b') - getDataSize (fst b) > getTypeSize (TTrivial 1) (repr_le 65).
Proof.
  intros b.
  exists (buffer_at 0 16 4 4 (std_copy (repr_le 65) 1 0 mem0)).
  split; [reflexivity | split; [reflexivity | split; [reflexivity |]]].
  split; [discriminate | reflexivity].
Qed.

(** Where the footprint exceeds what is left, a container is packed in
    part: a list of three [char] on a buffer of capacity 12 passes the size
    check (11 bytes), the count and the first element fill the buffer, the
    other two are dropped, and [put] still returns success. *)
Lemma list_put_drops_elements :
  let b : Buffer := (PackBuffer_new 0 12 4, mem0) in
  let v : value (TList (TTrivial 1)) := [repr_le 97; repr_le 98; repr_le 99] in
  getTypeSize (TList (TTrivial 1)) v = 11
  /\ footprint 4 (TList (TTrivial 1)) v = 20
  /\ PackBuffer_put true (TList (TTrivial 1)) v b
     = Normal true (buffer_at 0 12 4 12
                      (std_copy (repr_le 97) 1 8 (std_copy (repr_le 3) 8 0 mem0))).
Proof.
  intros b v. split; [reflexivity | split; reflexivity].
Qed.

(** A list of [char *] is sized by the closed overload, 8 bytes a pointer,
    and written by the string strategy: for the one string ["abc"] the size
    computation reports 16 bytes and a successful [put] advances by 12. *)
Lemma list_of_c_strings :
  let b : Buffer := (PackBuffer_new 0 64 4, mem0) in
  let v : value (TList TCStr) := [mk_c_string 4096 [97; 98; 99]] in
  getTypeSize (TList TCStr) v = 16
  /\ PackBuffer_put true (TList TCStr) v b
     = Normal true (buffer_at 0 64 4 12
                      (std_copy (c_str [97; 98; 99]) 4 8 (std_copy (repr_le 1) 8 0 mem0))).
Proof.
  intros b v. split; reflexivity.
Qed.

(** * Further properties of the code *)

(** ** The cursor: rounding, advance and retreat *)

Lemma to_uint32_le n : 0 <= n -> 0 <= to_uint32 n <= n.
Proof.
  intros H. unfold to_uint32. split.
  - apply Z.mod_pos_bound. reflexivity.
  - apply Z.mod_le; [exact H | reflexivity].
Qed.

(** Whatever the request, the rounded size the cursor computes is at most
    the request rounded up. *)
Lemma getAlignedSize_le c n :
  0 < alignment_ c < 2 ^ 32 -> 0 <= n ->
  0 <= getAlignedSize c n <= round_up (alignment_ c) n.
Proof.
  intros Hq Hn. unfold getAlignedSize. cbv zeta.
  rewrite (to_uint32_small (alignment_ c)) by lia.
  rewrite chunks_ceil_div by lia.
  pose proof (ceil_div_nonneg n (alignment_ c) ltac:(lia) Hn) as Hk.
  pose proof (to_uint32_le (ceil_div n (alignment_ c)) Hk) as Hc.
  assert (Hp : 0 <= to_uint32 (ceil_div n (alignment_ c)) * alignment_ c) by nia.
  pose proof (to_uint32_le _ Hp) as Hm.
  unfold round_up. nia.
Qed.

Lemma round_up_monotone q n n' : 0 < q -> n <= n' -> round_up q n <= round_up q n'.
Proof.
  intros Hq H. unfold round_up, ceil_div.
  apply Z.mul_le_mono_nonneg_r; [lia |].
  apply Z.div_le_mono; lia.
Qed.

(** X1. For a quantum [q] that [uint32_t] holds and a request of [n] bytes
    whose rounded size fits 32 bits, [getAlignedSize] adds less than one
    quantum of padding, returns a multiple of [q], leaves an already
    rounded size as it is, and is monotone in the request. *)
Theorem getAlignedSize_padding (c : Context) (n n' : Z) :
  0 < alignment_ c < 2 ^ 32 ->
  0 <= n <= n' ->
  round_up (alignment_ c) n' < 2 ^ 32 ->
  n <= getAlignedSize c n < n + alignment_ c
  /\ (alignment_ c | getAlignedSize c n)
  /\ getAlignedSize c (getAlignedSize c n) = getAlignedSize c n
  /\ getAlignedSize c n <= getAlignedSize c n'.
Proof.
  intros Hq Hn Hr.
  pose proof (round_up_monotone (alignment_ c) n n' ltac:(lia) ltac:(lia)) as Hmono.
  pose proof (round_up_bounds (alignment_ c) n ltac:(lia)) as B.
  pose proof (round_up_divide (alignment_ c) n) as D.
  pose proof (round_up_fixed (alignment_ c) _ ltac:(lia) D) as F.
  rewrite (getAlignedSize_round_up c n) by lia.
  rewrite (getAlignedSize_round_up c n') by lia.
  rewrite (getAlignedSize_round_up c (round_up (alignment_ c) n)) by lia.
  repeat split; try lia; assumption.
Qed.

Lemma getAlignedSize_padding_witness :
  let c := Context_new 0 64 8 in
  5 <= getAlignedSize c 5 < 5 + alignment_ c
  /\ (alignment_ c | getAlignedSize c 5)
  /\ getAlignedSize c (getAlignedSize c 5) = getAlignedSize c 5
  /\ getAlignedSize c 5 <= getAlignedSize c 17.
Proof.
  intros c. apply (getAlignedSize_padding c 5 17).
  - cbn. lia.
  - lia.
  - vm_compute. reflexivity.
Defined.

(** What an accepted [operator -=] does to the cursor. *)
Lemma operator_sub_assign_Some (exc : bool) (c c' : Context) (n : Z) :
  operator_sub_assign exc c n = Some c' ->
  c' = {| buf_size_ := buf_size_ c;
          p_msg_ := p_msg_ c - getAlignedSize c n;
          msg_size_ := sub64 (msg_size_ c) (getAlignedSize c n);
          alignment_ := alignment_ c |}.
Proof.
  unfold operator_sub_assign.
  destruct (exc && (msg_size_ c <? n)); [discriminate |].
  intros H. injection H as H. symmetry. exact H.
Qed.

(** X2. [operator -=] undoes [operator +=]: after an accepted advance of
    [n] bytes, a retreat of the same [n] bytes is accepted too and gives
    back the cursor of before, write pointer and offset, provided the
    rounded size fits 32 bits and the offset does not pass [SIZE_MAX]. *)
Theorem retreat_undoes_advance (exc : bool) (c c' : Context) (n : Z) :
  0 < alignment_ c < 2 ^ 32 ->
  0 <= n ->
  round_up (alignment_ c) n < 2 ^ 32 ->
  0 <= msg_size_ c ->
  msg_size_ c + round_up (alignment_ c) n <= SIZE_MAX ->
  operator_add_assign exc c n = Some c' ->
  operator_sub_assign exc c' n = Some c.
Proof.
  intros Hq Hn Hr Hm Hs H. apply operator_add_assign_Some in H. subst c'.
  pose proof (round_up_bounds (alignment_ c) n ltac:(lia)) as B.
  unfold SIZE_MAX in Hs.
  unfold operator_sub_assign. cbn [buf_size_ p_msg_ msg_size_ alignment_].
  assert (E : forall a, getAlignedSize {| buf_size_ := buf_size_ c;
                                          p_msg_ := p_msg_ c + a;
                                          msg_size_ := add64 (msg_size_ c) a;
                                          alignment_ := alignment_ c |} n
                        = getAlignedSize c n) by reflexivity.
  rewrite E. rewrite (getAlignedSize_round_up c n) by assumption.
  unfold add64, sub64. rewrite (to_size_t_small (msg_size_ c + _)) by lia.
  destruct (Z.ltb_spec (msg_size_ c + round_up (alignment_ c) n) n); [lia |].
  rewrite andb_false_r.
  replace (msg_size_ c + round_up (alignment_ c) n - round_up (alignment_ c) n)
    with (msg_size_ c) by lia.
  replace (p_msg_ c + round_up (alignment_ c) n - round_up (alignment_ c) n)
    with (p_msg_ c) by lia.
  rewrite to_size_t_small by lia. destruct c. reflexivity.
Qed.

Lemma retreat_undoes_advance_witness :
  let c := {| buf_size_ := 64; p_msg_ := 1000; msg_size_ := 8; alignment_ := 4 |} in
  let c' := {| buf_size_ := 64; p_msg_ := 1008; msg_size_ := 16; alignment_ := 4 |} in
  operator_add_assign true c 5 = Some c' /\ operator_sub_assign true c' 5 = Some c.
Proof.
  intros c c'. split; [reflexivity |].
  apply (retreat_undoes_advance true c c' 5).
  - cbn. lia.
  - lia.
  - vm_compute. reflexivity.
  - cbn. lia.
  - vm_compute. discriminate.
  - reflexivity.
Defined.

(** ** Calls that return *)

Lemma returns_ret {A : Type} (P Q : State -> Prop) (a : A) :
  (forall s, P s -> Q s) -> returns P (ret a) Q.
Proof. intros H s Hs. exists a, s. split; [reflexivity | apply H; exact Hs]. Qed.

Lemma returns_bind {A B : Type} (P R Q : State -> Prop) (f : M A) (g : A -> M B) :
  returns P f R -> (forall a, returns R (g a) Q) -> returns P (bind f g) Q.
Proof.
  intros Hf Hg s Hs. destruct (Hf s Hs) as (a & s' & E & Hr).
  unfold bind. rewrite E. apply Hg. exact Hr.
Qed.

Lemma returns_weaken {A : Type} (P P' Q Q' : State -> Prop) (f : M A) :
  (forall s, P' s -> P s) -> (forall s, Q s -> Q' s) ->
  returns P f Q -> returns P' f Q'.
Proof.
  intros HP HQ Hf s Hs. destruct (Hf s (HP s Hs)) as (a & s' & E & Hq).
  exists a, s'. split; [exact E | apply HQ; exact Hq].
Qed.

Lemma returns_if_nonempty {A : Type} (P : State -> Prop) (c : list A) (body : M bool) :
  returns P body P -> returns P (if_nonempty c body) P.
Proof.
  intros H. unfold if_nonempty. destruct (0 <? size c); [exact H |].
  apply returns_ret. auto.
Qed.

Lemma returns_put_each {A : Type} (P : State -> Prop) (f : A -> M bool) (c : list A) :
  (forall x, In x c -> returns P (f x) P) -> returns P (put_each f c) P.
Proof.
  induction c as [| x rest IH]; intros H; cbn [put_each].
  - apply returns_ret. auto.
  - apply returns_bind with (R := P).
    + apply H. left. reflexivity.
    + intros _. apply IH. intros y Hy. apply H. right. exact Hy.
Qed.

(** ** A cursor that stays inside its buffer *)

Section Inside.

Variable exc : bool.
Variables q base B : Z.
Variable m0 : Memory.
Hypothesis q_pos : 0 < q.
Hypothesis q_count : (q | sizeof_size_t).
Hypothesis q_capacity : (q | B).
Hypothesis B_range : 0 <= B <= SIZE_MAX.

Lemma q_range : 0 < q <= 8.
Proof.
  pose proof (Z.divide_pos_le q sizeof_size_t ltac:(reflexivity) q_count) as H.
  unfold sizeof_size_t in H. lia.
Qed.

Lemma q_divides_32 : (q | 2 ^ 32).
Proof.
  apply Z.divide_trans with (m := sizeof_size_t); [exact q_count |].
  exists (2 ^ 29). reflexivity.
Qed.

(** A room that the quantum divides holds the rounded size of whatever it
    holds. *)
Lemma fits_rounded n k : n <= k -> (q | k) -> round_up q n <= k.
Proof.
  intros Hn Hk.
  pose proof (round_up_monotone q n k q_pos Hn) as H.
  rewrite (round_up_fixed q k q_pos Hk) in H. exact H.
Qed.

Lemma getAlignedSize_inside c n :
  alignment_ c = q -> 0 <= n ->
  0 <= getAlignedSize c n <= round_up q n /\ (q | getAlignedSize c n).
Proof.
  intros Ha Hn. pose proof q_range as R. split.
  - rewrite <- Ha. apply getAlignedSize_le; rewrite ?Ha; lia.
  - apply getAlignedSize_divide; [exact q_pos | exact q_divides_32 | exact Ha].
Qed.

Lemma getAlignedSize_count c :
  alignment_ c = q -> getAlignedSize c sizeof_size_t = sizeof_size_t.
Proof.
  intros Ha. pose proof q_range as R.
  assert (F : round_up q sizeof_size_t = sizeof_size_t)
    by (apply round_up_fixed; [exact q_pos | exact q_count]).
  rewrite getAlignedSize_round_up; rewrite ?Ha, ?F; unfold sizeof_size_t; lia.
Qed.

Lemma room_weaken k k' s : k' <= k -> room q base B m0 k s -> room q base B m0 k' s.
Proof. intros Hk (Hi & Hr). split; [exact Hi | lia]. Qed.

Lemma room_inside k s : room q base B m0 k s -> inside q base B m0 s.
Proof. intros (Hi & _). exact Hi. Qed.

Lemma inside_room s : inside q base B m0 s -> room q base B m0 0 s.
Proof. intros Hi. split; [exact Hi |]. destruct Hi as (_ & HB & _ & Hm & _). lia. Qed.

Lemma buffer_size_inside s :
  inside q base B m0 s -> buffer_size (fst s) = B - msg_size_ (fst s).
Proof.
  intros (_ & HB & _ & Hm & _). unfold buffer_size, sub64. rewrite HB.
  apply to_size_t_small. unfold SIZE_MAX in B_range. lia.
Qed.

(** [std::copy] of what the room holds stays in the buffer. *)
Lemma copy_to_buffer_room k src len :
  len <= k ->
  returns (room q base B m0 k) (copy_to_buffer src len) (room q base B m0 k).
Proof.
  intros Hlen [c m] ((Ha & HB & Hd & Hm & Hp & Hout) & Hr). cbn [fst snd] in *.
  exists tt, (c, std_copy src len (buffer c) m). split; [reflexivity |].
  split; [| exact Hr]. repeat split; cbn [fst snd]; try assumption; try lia.
  intros a Hout'. unfold std_copy, buffer.
  destruct (Z.leb_spec (p_msg_ c) a); destruct (Z.ltb_spec a (p_msg_ c + len));
    cbn [andb]; try (apply Hout; exact Hout').
  lia.
Qed.

(** [operator +=] of what the room holds is accepted and leaves the cursor
    inside the buffer. *)
Lemma advance_room k n :
  0 <= n <= k ->
  returns (room q base B m0 k) (advance exc n)
          (room q base B m0 (k - round_up q n)).
Proof.
  intros Hn [c m] ((Ha & HB & Hd & Hm & Hp & Hout) & Hr). cbn [fst snd] in *.
  pose proof (getAlignedSize_inside c n Ha ltac:(lia)) as ((G0 & G1) & Gd).
  assert (Hk : (q | B - msg_size_ c)) by (apply Z.divide_sub_r; assumption).
  pose proof (fits_rounded n (B - msg_size_ c) ltac:(lia) Hk) as Hfit.
  unfold SIZE_MAX in B_range.
  unfold advance, operator_add_assign. cbn [fst snd]. rewrite HB.
  unfold add64. rewrite (to_size_t_small (msg_size_ c + n)) by lia.
  destruct (Z.ltb_spec B (msg_size_ c + n)); [lia |]. rewrite andb_false_r.
  rewrite to_size_t_small by lia.
  eexists tt, (_, m). split; [reflexivity |].
  split; [repeat split |]; cbn [fst snd alignment_ buf_size_ msg_size_ p_msg_];
    try assumption; try lia.
  apply Z.divide_add_r; assumption.
Qed.

Lemma returns_if_fits n body :
  returns (room q base B m0 n) body (inside q base B m0) ->
  returns (inside q base B m0) (if_fits n body) (inside q base B m0).
Proof.
  intros Hbody s Hs. unfold if_fits. rewrite (buffer_size_inside s Hs).
  destruct (Z.leb_spec n (B - msg_size_ (fst s))).
  - assert (Hr : room q base B m0 n s).
    { split; [exact Hs |]. destruct Hs as (_ & HB & _). lia. }
    apply (returns_bind (room q base B m0 n) (inside q base B m0) (inside q base B m0)
                        body (fun _ => ret true)).
    + exact Hbody.
    + intros _. apply returns_ret. auto.
    + exact Hr.
  - exists false, s. split; [reflexivity | exact Hs].
Qed.

Lemma put_trivial_inside n t :
  0 <= n ->
  returns (inside q base B m0) (put_trivial exc n t) (inside q base B m0).
Proof.
  intros Hn. unfold put_trivial, getTypeSize_trivial. apply returns_if_fits.
  apply returns_bind with (R := room q base B m0 n).
  - apply copy_to_buffer_room. lia.
  - intros _. apply returns_weaken with (P := room q base B m0 n)
                                        (Q := room q base B m0 (n - round_up q n)).
    + auto.
    + apply room_inside.
    + apply advance_room. lia.
Qed.

(** The count field takes eight bytes of the room, when it is written. *)
Lemma put_count_room k n :
  returns (room q base B m0 k) (put_count exc n) (room q base B m0 (k - sizeof_size_t)).
Proof.
  intros s Hs. pose proof (room_inside k s Hs) as Hi.
  unfold put_count, put_trivial, getTypeSize_trivial, if_fits, bind at 1.
  rewrite (buffer_size_inside s Hi).
  destruct (Z.leb_spec sizeof_size_t (B - msg_size_ (fst s))) as [Hfit | Hno].
  - set (r := B - msg_size_ (fst s)) in *.
    assert (Hr : room q base B m0 r s).
    { split; [exact Hi |]. destruct Hi as (_ & HB & _). subst r. lia. }
    assert (Hk : k <= r).
    { destruct Hs as ((_ & HB & _) & Hk). subst r. lia. }
    assert (F : round_up q sizeof_size_t = sizeof_size_t)
      by (apply round_up_fixed; [exact q_pos | exact q_count]).
    assert (R : returns (room q base B m0 r)
                  (copy_to_buffer (repr_le n) sizeof_size_t ;; advance exc sizeof_size_t)
                  (room q base B m0 (k - sizeof_size_t))).
    { apply returns_bind with (R := room q base B m0 r).
      - apply copy_to_buffer_room. exact Hfit.
      - intros _. apply returns_weaken with (P := room q base B m0 r)
                    (Q := room q base B m0 (r - round_up q sizeof_size_t)).
        + auto.
        + intros s'. apply room_weaken. rewrite F. lia.
        + apply advance_room. unfold sizeof_size_t in *. lia. }
    destruct (R s Hr) as ([] & s' & E & Hs').
    unfold bind at 1. rewrite E. exists tt, s'. split; [reflexivity | exact Hs'].
  - exists tt, s. split; [reflexivity |].
    apply room_weaken with (k := k); [unfold sizeof_size_t; lia | exact Hs].
Qed.

Lemma put_count_inside n :
  returns (inside q base B m0) (put_count exc n) (inside q base B m0).
Proof.
  apply returns_weaken with (P := room q base B m0 0)
                            (Q := room q base B m0 (0 - sizeof_size_t)).
  - apply inside_room.
  - apply room_inside.
  - apply put_count_room.
Qed.

(** A count field and [len] bytes after it, in a room that was checked to
    hold both. *)
Lemma counted_bytes_inside n src len :
  0 <= len ->
  returns (room q base B m0 (sizeof_size_t + len))
          (put_count exc n ;; copy_to_buffer src len ;; advance exc len)
          (inside q base B m0).
Proof.
  intros Hlen.
  apply returns_bind with (R := room q base B m0 len).
  - apply returns_weaken with (P := room q base B m0 (sizeof_size_t + len))
                              (Q := room q base B m0 (sizeof_size_t + len - sizeof_size_t)).
    + auto.
    + intros s. apply room_weaken. lia.
    + apply put_count_room.
  - intros _. apply returns_bind with (R := room q base B m0 len).
    + apply copy_to_buffer_room. lia.
    + intros _. apply returns_weaken with (P := room q base B m0 len)
                                          (Q := room q base B m0 (len - round_up q len)).
      * auto.
      * apply room_inside.
      * apply advance_room. lia.
Qed.

Lemma put_span_inside sizeof_T _buffer dataLen :
  0 <= sizeof_T -> 0 <= dataLen ->
  sizeof_size_t + sizeof_T * dataLen <= SIZE_MAX ->
  returns (inside q base B m0) (put_span exc sizeof_T _buffer dataLen)
          (inside q base B m0).
Proof.
  intros HT Hlen Hmax. unfold put_span. destruct _buffer as [p_start_ |].
  - assert (Hp : 0 <= sizeof_T * dataLen) by (apply Z.mul_nonneg_nonneg; lia).
    unfold SIZE_MAX, sizeof_size_t in Hmax.
    assert (Hmul : mul64 sizeof_T dataLen = sizeof_T * dataLen)
      by (unfold mul64; apply to_size_t_small; lia).
    unfold getTypeSize_span. rewrite Hmul.
    assert (Hadd : add64 sizeof_size_t (sizeof_T * dataLen)
                   = sizeof_size_t + sizeof_T * dataLen)
      by (unfold add64; apply to_size_t_small; unfold sizeof_size_t; lia).
    rewrite Hadd. apply returns_if_fits. apply counted_bytes_inside. exact Hp.
  - apply returns_ret. auto.
Qed.

Lemma put_chars_inside kCStringLen p_start_ :
  0 <= kCStringLen < 2 ^ 31 ->
  returns (inside q base B m0) (put_chars exc kCStringLen p_start_)
          (inside q base B m0).
Proof.
  intros Hk. unfold put_chars. rewrite to_size_t_small by lia.
  destruct (Z.ltb_spec kCStringLen 0); [lia |].
  apply returns_if_fits.
  apply returns_bind with (R := room q base B m0 kCStringLen).
  - apply copy_to_buffer_room. lia.
  - intros _. apply returns_weaken with (P := room q base B m0 kCStringLen)
                  (Q := room q base B m0 (kCStringLen - round_up q kCStringLen)).
    + auto.
    + apply room_inside.
    + apply advance_room. lia.
Qed.

Lemma text_length n :
  0 <= n -> (n + 1 <? 2 ^ 31) = true ->
  to_int (add64 n 1) = n + 1 /\ 0 <= n + 1 < 2 ^ 31.
Proof.
  intros Hn Hlt. apply Z.ltb_lt in Hlt.
  unfold add64. rewrite to_size_t_small by lia. rewrite to_int_small by lia. lia.
Qed.

Lemma put_cstr_inside str :
  (match str with Some text => strlen text + 1 <? 2 ^ 31 | None => true end) = true ->
  returns (inside q base B m0) (put_cstr exc str) (inside q base B m0).
Proof.
  intros H. unfold put_cstr. destruct str as [text |].
  - unfold getTypeSize_cstr.
    destruct (text_length (strlen text) (strlen_nonneg text) H) as (E & R).
    rewrite E. apply put_chars_inside. exact R.
  - apply returns_ret. auto.
Qed.

Lemma put_string_inside _str :
  (size _str + 1 <? 2 ^ 31) = true ->
  returns (inside q base B m0) (put_string exc _str) (inside q base B m0).
Proof.
  intros H. unfold put_string, getTypeSize_string.
  destruct (text_length (size _str) (size_nonneg _str) H) as (E & R).
  rewrite E. apply put_chars_inside. exact R.
Qed.

(** A container packed element by element. *)
Lemma sequence_inside {A : Type} (n : Z) (put_elem : A -> M bool) (c : list A) :
  (forall x, In x c ->
     returns (inside q base B m0) (put_elem x) (inside q base B m0)) ->
  returns (inside q base B m0)
          (if_nonempty c (if_fits n (put_count exc (size c) ;; put_each put_elem c)))
          (inside q base B m0).
Proof.
  intros H. apply returns_if_nonempty. apply returns_if_fits.
  apply returns_weaken with (P := inside q base B m0) (Q := inside q base B m0);
    [apply room_inside | auto |].
  apply returns_bind with (R := inside q base B m0).
  - apply put_count_inside.
  - intros _. apply returns_put_each. exact H.
Qed.

Lemma entry_inside {A C : Type} (put_key : A -> M bool) (put_val : C -> M bool)
    (ve : A * C) :
  returns (inside q base B m0) (put_key (fst ve)) (inside q base B m0) ->
  returns (inside q base B m0) (put_val (snd ve)) (inside q base B m0) ->
  returns (inside q base B m0) (put_key (fst ve) ;; put_val (snd ve))
          (inside q base B m0).
Proof.
  intros Hk Hv. apply returns_bind with (R := inside q base B m0); [exact Hk |].
  intros _. exact Hv.
Qed.

Lemma put_inside (t : ty) (v : value t) :
  plausible t v = true ->
  returns (inside q base B m0) (put exc t v) (inside q base B m0).
Proof.
  induction t as [n | | | T IH | T IH | K IH | K IHK V IHV | K IHK V IHV | K IH
                  | K IHK V IHV]; cbn [value] in v; cbn [plausible put]; intros Hv.
  - apply put_trivial_inside. apply Z.leb_le. exact Hv.
  - apply put_cstr_inside. exact Hv.
  - apply put_string_inside. exact Hv.
  - apply andb_prop in Hv as (Hv & Hmax). apply andb_prop in Hv as (Htriv & HT).
    apply Z.leb_le in HT, Hmax.
    pose proof (size_nonneg v) as Hsz.
    assert (Hp : 0 <= size v * sizeof T) by (apply Z.mul_nonneg_nonneg; lia).
    unfold SIZE_MAX, sizeof_size_t in Hmax.
    apply returns_if_nonempty. cbn [getTypeSize]. rewrite Htriv.
    rewrite getTypeSize_closed_unfold.
    replace (sizeof T * size v) with (size v * sizeof T) by lia.
    rewrite to_size_t_small by (unfold sizeof_size_t; lia).
    unfold copy_elements. rewrite Htriv.
    assert (Hmul : mul64 (size v) (sizeof T) = size v * sizeof T)
      by (unfold mul64; apply to_size_t_small; lia).
    rewrite Hmul. apply returns_if_fits. apply counted_bytes_inside. exact Hp.
  - apply sequence_inside. intros x Hx. apply IH.
    rewrite forallb_forall in Hv. apply Hv. exact Hx.
  - apply sequence_inside. intros x Hx. apply IH.
    rewrite forallb_forall in Hv. apply Hv. exact Hx.
  - apply andb_prop in Hv as (HK & HV). apply returns_if_fits.
    apply returns_weaken with (P := inside q base B m0) (Q := inside q base B m0);
      [apply room_inside | auto |].
    apply returns_bind with (R := inside q base B m0); [apply IHK; exact HK |].
    intros _. apply returns_bind with (R := inside q base B m0); [apply IHV; exact HV |].
    intros _. apply returns_ret. auto.
  - apply (sequence_inside _ (fun ve : value K * value V => put exc K (fst ve) ;; put exc V (snd ve))).
    intros x Hx. rewrite forallb_forall in Hv. specialize (Hv x Hx).
    apply andb_prop in Hv as (HK & HV).
    apply entry_inside; [apply IHK; exact HK | apply IHV; exact HV].
  - apply sequence_inside. intros x Hx. apply IH.
    rewrite forallb_forall in Hv. apply Hv. exact Hx.
  - apply (sequence_inside _ (fun ve : value K * value V => put exc K (fst ve) ;; put exc V (snd ve))).
    intros x Hx. rewrite forallb_forall in Hv. specialize (Hv x Hx).
    apply andb_prop in Hv as (HK & HV).
    apply entry_inside; [apply IHK; exact HK | apply IHV; exact HV].
Qed.

(** The facade hands its cursor to the strategy and keeps [p_buf_]. *)
Lemma with_context_within {A : Type} (f : M A) (b : Buffer) :
  returns (inside q base B m0) f (inside q base B m0) ->
  within q base B m0 b ->
  exists a b', with_context f b = Normal a b' /\ within q base B m0 b'.
Proof.
  intros Hf (Hp & Hi). destruct (Hf _ Hi) as (a & s' & E & Hs').
  unfold with_context. rewrite E. eexists a, (_, _). split; [reflexivity |].
  split; [exact Hp |]. destruct s'. exact Hs'.
Qed.

(** [reset()] is accepted and leaves the cursor inside the buffer. *)
Lemma reset_within (b : Buffer) :
  within q base B m0 b ->
  exists b', reset exc b = Normal tt b' /\ within q base B m0 b'.
Proof.
  intros Hb. unfold reset.
  match goal with
  | |- exists b', with_context ?f b = _ /\ _ =>
      assert (Hf : returns (inside q base B m0) f (inside q base B m0));
      [| destruct (with_context_within f b Hf Hb) as ([] & b' & E & Hb');
         exists b'; split; [exact E | exact Hb']]
  end.
  intros [c m] (Ha & HB & Hd & Hm & Hp & Hout). cbn [fst snd] in *.
  pose proof (getAlignedSize_inside c (msg_size_ c) Ha ltac:(lia)) as ((G0 & G1) & Gd).
  rewrite (round_up_fixed q _ q_pos Hd) in G1.
  unfold SIZE_MAX in B_range.
  unfold operator_sub_assign. rewrite Z.ltb_irrefl, andb_false_r.
  eexists tt, (_, m). split; [reflexivity |].
  unfold sub64. rewrite to_size_t_small by lia.
  repeat split; cbn [fst snd alignment_ buf_size_ msg_size_ p_msg_];
    try assumption; try lia.
  apply Z.divide_sub_r; assumption.
Qed.

Lemma perform_within (k : call) (b : Buffer) :
  plausible_call k = true ->
  within q base B m0 b ->
  exists b', perform exc k b = Normal tt b' /\ within q base B m0 b'.
Proof.
  intros Hk Hb. destruct k as [t v | str | sizeof_T _buffer dataLen |];
    cbn [plausible_call perform] in *.
  - unfold operator_shl, PackBuffer_put.
    destruct (with_context_within (put exc t v) b (put_inside t v Hk) Hb)
      as (a & b' & E & Hb').
    rewrite E. exists b'. split; [reflexivity | exact Hb'].
  - unfold PackBuffer_put_cstr.
    destruct (with_context_within (put_cstr exc str) b (put_cstr_inside str Hk) Hb)
      as (a & b' & E & Hb').
    rewrite E. exists b'. split; [reflexivity | exact Hb'].
  - apply andb_prop in Hk as (Hk & Hmax). apply andb_prop in Hk as (HT & Hlen).
    apply Z.leb_le in HT, Hlen, Hmax.
    unfold PackBuffer_put_span.
    destruct (with_context_within (put_span exc sizeof_T _buffer dataLen) b
                (put_span_inside sizeof_T _buffer dataLen HT Hlen Hmax) Hb)
      as (a & b' & E & Hb').
    rewrite E. exists b'. split; [reflexivity | exact Hb'].
  - apply reset_within. exact Hb.
Qed.

Lemma session_within (ks : list call) (b : Buffer) :
  forallb plausible_call ks = true ->
  within q base B m0 b ->
  exists b', session exc ks b = Normal tt b' /\ within q base B m0 b'.
Proof.
  revert b. induction ks as [| k rest IH]; intros b Hks Hb; cbn [session].
  - exists b. split; [reflexivity | exact Hb].
  - cbn [forallb] in Hks. apply andb_prop in Hks as (Hk & Hrest).
    destruct (perform_within k b Hk Hb) as (b1 & E & Hb1).
    rewrite E. apply IH; assumption.
Qed.

Lemma within_new : within q base B m0 (PackBuffer_new base B q, m0).
Proof.
  split; [reflexivity |]. repeat split; cbn; try lia.
  apply Z.divide_0_r.
Qed.

Lemma within_accounting (b : Buffer) :
  within q base B m0 b ->
  getData (fst b) = base
  /\ (q | getDataSize (fst b))
  /\ 0 <= getDataSize (fst b) <= B
  /\ getDataSize (fst b) + getBufferSize (fst b) = B
  /\ buffer (context_ (fst b)) = getData (fst b) + getDataSize (fst b)
  /\ forall a, a < base \/ base + B <= a -> snd b a = m0 a.
Proof.
  intros (Hp & Hi). pose proof (buffer_size_inside _ Hi) as Hs.
  destruct Hi as (Ha & HB & Hd & Hm & Hq & Hout). cbn [fst snd] in *.
  unfold getData, getDataSize, getBufferSize, buffer.
  repeat split; try assumption; try lia.
Qed.

End Inside.

(** X3. A session on a fresh [PackBuffer] over the [B] bytes at [p0], with
    a quantum that divides both [sizeof(size_t)] and [B]: whatever sequence
    of [put], [operator <<], pointer-and-length [put] and [reset] calls is
    made with plausible arguments, every call returns; at the end
    [getData()] is still [p0], the offset is a multiple of the quantum
    within the capacity, [getDataSize() + getBufferSize()] is [B], the
    write pointer is [getData() + getDataSize()], and no byte outside the
    [B] bytes at [p0] has changed. *)
Theorem session_stays_inside (exc : bool) (q p0 B : Z) (m0 : Memory) (ks : list call) :
  0 < q -> (q | sizeof_size_t) -> (q | B) -> 0 <= B <= SIZE_MAX ->
  forallb plausible_call ks = true ->
  exists b',
    session exc ks (PackBuffer_new p0 B q, m0) = Normal tt b'
    /\ getData (fst b') = p0
    /\ (q | getDataSize (fst b'))
    /\ 0 <= getDataSize (fst b') <= B
    /\ getDataSize (fst b') + getBufferSize (fst b') = B
    /\ buffer (context_ (fst b')) = getData (fst b') + getDataSize (fst b')
    /\ forall a, a < p0 \/ p0 + B <= a -> snd b' a = m0 a.
Proof.
  intros Hq H8 HB HR Hks.
  destruct (session_within exc q p0 B m0 Hq H8 HB HR ks _ Hks
              (within_new q p0 B m0 HR))
    as (b' & E & Hb').
  exists b'. split; [exact E |].
  apply (within_accounting q p0 B m0 HR). exact Hb'.
Qed.

Lemma session_stays_inside_witness :
  let ks := [Put int32_t (repr_le 7); PutCStr (Some hello);
             PutSpan 2 (Some (fun _ => 1)) 3; Reset;
             Put (TList int32_t) [repr_le 1; repr_le 2]] in
  exists b',
    session true ks (PackBuffer_new 1000 64 4, mem0) = Normal tt b'
    /\ getData (fst b') = 1000
    /\ (4 | getDataSize (fst b'))
    /\ 0 <= getDataSize (fst b') <= 64
    /\ getDataSize (fst b') + getBufferSize (fst b') = 64
    /\ buffer (context_ (fst b')) = getData (fst b') + getDataSize (fst b')
    /\ forall a, a < 1000 \/ 1000 + 64 <= a -> snd b' a = mem0 a.
Proof.
  intros ks. apply (session_stays_inside true 4 1000 64 mem0 ks).
  - lia.
  - exists 2. reflexivity.
  - exists 16. reflexivity.
  - unfold SIZE_MAX. lia.
  - reflexivity.
Defined.

Lemma session_app (exc : bool) (ks ks' : list call) (b b1 : Buffer) :
  session exc ks b = Normal tt b1 ->
  session exc (ks ++ ks') b = session exc ks' b1.
Proof.
  revert b. induction ks as [| k rest IH]; intros b; cbn [session app].
  - intros H. injection H as ->. reflexivity.
  - destruct (perform exc k b) as [[] b2 | b2 |]; try discriminate. apply IH.
Qed.

(** X4. [reset()] gives back the buffer as it was constructed.  On a
    [PackBuffer] over less than 2^32 bytes, with a quantum that divides
    [sizeof(size_t)] and the capacity: after any sequence of calls with
    plausible arguments, a [reset()] returns and leaves the [PackBuffer]
    equal to the one the constructor built, so that the next [put] starts at
    [getData()] again; of the memory, nothing outside the buffer has
    changed. *)
Theorem reset_restores_construction (exc : bool) (q p0 B : Z) (m0 : Memory)
    (ks : list call) :
  0 < q -> (q | sizeof_size_t) -> (q | B) -> 0 <= B < 2 ^ 32 ->
  forallb plausible_call ks = true ->
  exists m',
    session exc (ks ++ [Reset]) (PackBuffer_new p0 B q, m0)
    = Normal tt (PackBuffer_new p0 B q, m')
    /\ forall a, a < p0 \/ p0 + B <= a -> m' a = m0 a.
Proof.
  intros Hq H8 HB HR Hks.
  assert (HR' : 0 <= B <= SIZE_MAX) by (unfold SIZE_MAX; lia).
  destruct (session_within exc q p0 B m0 Hq H8 HB HR' ks _ Hks
              (within_new q p0 B m0 HR'))
    as ([[pb c] m] & E & Hp & Ha & Hcap & Hd & Hm & Hpm & Hout).
  cbn [fst snd p_buf_ context_] in *.
  rewrite (session_app exc ks [Reset] _ _ E). cbn [session perform].
  unfold reset, with_context, operator_sub_assign. cbn [fst snd p_buf_ context_].
  rewrite Z.ltb_irrefl, andb_false_r.
  pose proof (q_range q Hq H8) as Q.
  assert (G : getAlignedSize c (msg_size_ c) = msg_size_ c).
  { rewrite getAlignedSize_round_up; rewrite ?Ha, ?(round_up_fixed q _ Hq Hd);
      try lia; reflexivity. }
  rewrite G. unfold sub64. rewrite Z.sub_diag.
  exists m. split; [| exact Hout].
  unfold PackBuffer_new, Context_new. subst pb. rewrite Hpm, Ha, Hcap.
  replace (p0 + msg_size_ c - msg_size_ c) with p0 by lia. reflexivity.
Qed.

Lemma reset_restores_construction_witness :
  let ks := [Put int32_t (repr_le 7); PutCStr (Some hello);
             Put (TVector int32_t) [repr_le 1; repr_le 2]] in
  exists m',
    session true (ks ++ [Reset]) (PackBuffer_new 1000 64 4, mem0)
    = Normal tt (PackBuffer_new 1000 64 4, m')
    /\ forall a, a < 1000 \/ 1000 + 64 <= a -> m' a = mem0 a.
Proof.
  intros ks. apply (reset_restores_construction true 4 1000 64 mem0 ks).
  - lia.
  - exists 2. reflexivity.
  - exists 16. reflexivity.
  - lia.
  - reflexivity.
Defined.

(** ** What is packed stays packed *)

Lemma triple_ret {A : Type} (e : bool) (P : State -> Prop) (a : A) :
  triple e P (ret a) P.
Proof. intros s Hs. exact Hs. Qed.

Lemma triple_bind {A B : Type} (e : bool) (P R Q : State -> Prop)
    (f : M A) (g : A -> M B) :
  (forall s, R s -> Q s) ->
  triple e P f R -> (forall a, triple e R (g a) Q) -> triple e P (bind f g) Q.
Proof.
  intros HRQ Hf Hg s Hs. specialize (Hf s Hs). unfold bind.
  destruct (f s) as [a s' | s' |].
  - apply Hg. exact Hf.
  - destruct Hf as (He & Hr). split; [exact He | apply HRQ; exact Hr].
  - exact I.
Qed.

Lemma triple_seq {A B : Type} (e : bool) (P : State -> Prop) (f : M A) (g : A -> M B) :
  triple e P f P -> (forall a, triple e P (g a) P) -> triple e P (bind f g) P.
Proof. apply triple_bind. auto. Qed.

Lemma triple_undefined {A : Type} (e : bool) (P Q : State -> Prop) :
  triple e P (@undefined A) Q.
Proof. intros s _. exact I. Qed.

Lemma triple_if_fits (e : bool) (P : State -> Prop) n body :
  triple e P body P -> triple e P (if_fits n body) P.
Proof.
  intros H s Hs. unfold if_fits. destruct (n <=? buffer_size (fst s)).
  - apply (triple_seq e P body (fun _ => ret true)); [exact H | | exact Hs].
    intros _. apply triple_ret.
  - exact Hs.
Qed.

Lemma triple_if_nonempty {A : Type} (e : bool) (P : State -> Prop) (c : list A) body :
  triple e P body P -> triple e P (if_nonempty c body) P.
Proof.
  intros H. unfold if_nonempty. destruct (0 <? size c); [exact H | apply triple_ret].
Qed.

Lemma triple_put_each {A : Type} (e : bool) (P : State -> Prop)
    (f : A -> M bool) (c : list A) :
  (forall x, triple e P (f x) P) -> triple e P (put_each f c) P.
Proof.
  intros H. induction c as [| x rest IH]; cbn [put_each].
  - apply triple_ret.
  - apply triple_seq; [apply H | intros _; exact IH].
Qed.

Section Kept.

Variable exc : bool.
Variable L : Z.
Variable m0 : Memory.

Lemma kept_copy_to_buffer src len :
  triple exc (prefix_kept L m0) (copy_to_buffer src len) (prefix_kept L m0).
Proof.
  intros [c m] (Hp & Hm). cbn [fst snd] in *. split; cbn [fst snd]; [exact Hp |].
  intros a Ha. unfold std_copy, buffer.
  destruct (Z.leb_spec (p_msg_ c) a); [lia |]. cbn [andb]. apply Hm. exact Ha.
Qed.

Lemma getAlignedSize_nonneg c n : 0 <= getAlignedSize c n.
Proof. unfold getAlignedSize, to_uint32. apply Z.mod_pos_bound. reflexivity. Qed.

(** [operator +=] moves the write pointer forward or not at all, and throws
    only where exceptions are compiled in. *)
Lemma kept_advance n :
  triple exc (prefix_kept L m0) (advance exc n) (prefix_kept L m0).
Proof.
  intros [c m] (Hp & Hm). cbn [fst snd] in *.
  unfold advance, operator_add_assign. cbn [fst snd].
  destruct exc; cbn [andb].
  - destruct (buf_size_ c <? add64 (msg_size_ c) n).
    + split; [reflexivity |]. split; assumption.
    + pose proof (getAlignedSize_nonneg c n). split; cbn [fst snd p_msg_]; [lia | exact Hm].
  - pose proof (getAlignedSize_nonneg c n). split; cbn [fst snd p_msg_]; [lia | exact Hm].
Qed.

Lemma kept_put_trivial n t :
  triple exc (prefix_kept L m0) (put_trivial exc n t) (prefix_kept L m0).
Proof.
  unfold put_trivial. apply triple_if_fits.
  apply triple_seq.
  - apply kept_copy_to_buffer.
  - intros _. apply kept_advance.
Qed.

Lemma kept_put_count n :
  triple exc (prefix_kept L m0) (put_count exc n) (prefix_kept L m0).
Proof.
  unfold put_count. apply triple_seq.
  - apply kept_put_trivial.
  - intros _. apply triple_ret.
Qed.

Lemma kept_counted_bytes n src len k :
  triple exc (prefix_kept L m0)
         (put_count exc n ;; copy_to_buffer src len ;; advance exc k)
         (prefix_kept L m0).
Proof.
  apply triple_seq; [apply kept_put_count |].
  intros _. apply triple_seq.
  - apply kept_copy_to_buffer.
  - intros _. apply kept_advance.
Qed.

Lemma kept_put_span sizeof_T _buffer dataLen :
  triple exc (prefix_kept L m0) (put_span exc sizeof_T _buffer dataLen)
         (prefix_kept L m0).
Proof.
  unfold put_span. destruct _buffer as [p_start_ |]; [| apply triple_ret].
  apply triple_if_fits. apply kept_counted_bytes.
Qed.

Lemma kept_put_chars kCStringLen p_start_ :
  triple exc (prefix_kept L m0) (put_chars exc kCStringLen p_start_)
         (prefix_kept L m0).
Proof.
  unfold put_chars. apply triple_if_fits.
  apply triple_seq.
  - destruct (kCStringLen <? 0); [apply triple_undefined | apply kept_copy_to_buffer].
  - intros _. apply kept_advance.
Qed.

Lemma kept_put_cstr str :
  triple exc (prefix_kept L m0) (put_cstr exc str) (prefix_kept L m0).
Proof.
  unfold put_cstr. destruct str; [apply kept_put_chars | apply triple_ret].
Qed.

Lemma kept_sequence {A : Type} (n : Z) (put_elem : A -> M bool) (c : list A) :
  (forall x, triple exc (prefix_kept L m0) (put_elem x) (prefix_kept L m0)) ->
  triple exc (prefix_kept L m0)
         (if_nonempty c (if_fits n (put_count exc (size c) ;; put_each put_elem c)))
         (prefix_kept L m0).
Proof.
  intros H. apply triple_if_nonempty. apply triple_if_fits.
  apply triple_seq; [apply kept_put_count |].
  intros _. apply triple_put_each. exact H.
Qed.

Lemma kept_put (t : ty) (v : value t) :
  triple exc (prefix_kept L m0) (put exc t v) (prefix_kept L m0).
Proof.
  induction t as [n | | | T IH | T IH | K IH | K IHK V IHV | K IHK V IHV | K IH
                  | K IHK V IHV]; cbn [value] in v; cbn [put].
  - apply kept_put_trivial.
  - apply kept_put_cstr.
  - apply kept_put_chars.
  - apply triple_if_nonempty. apply triple_if_fits.
    apply triple_seq; [apply kept_put_count |].
    intros _. apply triple_seq.
    + unfold copy_elements.
      destruct (is_trivial T); [apply kept_copy_to_buffer | apply triple_undefined].
    + intros _. apply kept_advance.
  - apply kept_sequence. exact IH.
  - apply kept_sequence. exact IH.
  - apply triple_if_fits.
    apply triple_seq; [apply IHK |].
    intros _. apply triple_seq; [apply IHV |].
    intros _. apply triple_ret.
  - apply (kept_sequence _ (fun ve : value K * value V =>
                              put exc K (fst ve) ;; put exc V (snd ve))).
    intros x. apply triple_seq; [apply IHK | intros _; apply IHV].
  - apply kept_sequence. exact IH.
  - apply (kept_sequence _ (fun ve : value K * value V =>
                              put exc K (fst ve) ;; put exc V (snd ve))).
    intros x. apply triple_seq; [apply IHK | intros _; apply IHV].
Qed.

Lemma kept_with_context {A : Type} (f : M A) (b : Buffer) :
  triple exc (prefix_kept L m0) f (prefix_kept L m0) ->
  prefix_kept L m0 (context_ (fst b), snd b) ->
  ends_in exc (with_context f b)
          (fun b' => prefix_kept L m0 (context_ (fst b'), snd b')).
Proof.
  intros Hf Hb. specialize (Hf _ Hb). unfold with_context.
  destruct (f (context_ (fst b), snd b)) as [a [c m] | [c m] |]; exact Hf.
Qed.

Lemma kept_perform (k : call) (b : Buffer) :
  is_reset k = false ->
  prefix_kept L m0 (context_ (fst b), snd b) ->
  ends_in exc (perform exc k b)
          (fun b' => prefix_kept L m0 (context_ (fst b'), snd b')).
Proof.
  intros Hk Hb.
  destruct k as [t v | str | sizeof_T _buffer dataLen |]; try discriminate;
    cbn [perform].
  - unfold operator_shl, PackBuffer_put.
    pose proof (kept_with_context (put exc t v) b (kept_put t v) Hb) as H.
    destruct (with_context (put exc t v) b); exact H.
  - unfold PackBuffer_put_cstr.
    pose proof (kept_with_context (put_cstr exc str) b (kept_put_cstr str) Hb) as H.
    destruct (with_context (put_cstr exc str) b); exact H.
  - unfold PackBuffer_put_span.
    pose proof (kept_with_context (put_span exc sizeof_T _buffer dataLen) b
                  (kept_put_span sizeof_T _buffer dataLen) Hb) as H.
    destruct (with_context (put_span exc sizeof_T _buffer dataLen) b); exact H.
Qed.

Lemma kept_session (ks : list call) (b : Buffer) :
  existsb is_reset ks = false ->
  prefix_kept L m0 (context_ (fst b), snd b) ->
  ends_in exc (session exc ks b)
          (fun b' => prefix_kept L m0 (context_ (fst b'), snd b')).
Proof.
  revert b. induction ks as [| k rest IH]; intros b Hks Hb; cbn [session].
  - exact Hb.
  - cbn [existsb] in Hks. apply orb_false_elim in Hks as (Hk & Hrest).
    pose proof (kept_perform k b Hk Hb) as H.
    destruct (perform exc k b) as [[] b1 | b1 |].
    + apply IH; assumption.
    + exact H.
    + exact I.
Qed.

End Kept.

(** X5. What is packed stays packed: over any sequence of [put],
    [operator <<] and pointer-and-length [put] calls without a [reset],
    whatever the values, the capacity and the room left, the write pointer
    never moves back and no byte below the write pointer of the start is
    written again; this holds when the sequence returns and when a call
    throws, and a call throws only where exceptions are compiled in. *)
Theorem packed_bytes_kept (exc : bool) (ks : list call) (b : Buffer) :
  0 < alignment_ (context_ (fst b)) < 2 ^ 32 ->
  existsb is_reset ks = false ->
  ends_in exc (session exc ks b)
    (fun b' =>
       buffer (context_ (fst b)) <= buffer (context_ (fst b'))
       /\ forall a, a < buffer (context_ (fst b)) -> snd b' a = snd b a).
Proof.
  intros _ Hks.
  apply (kept_session exc (buffer (context_ (fst b))) (snd b) ks b Hks).
  split; cbn [fst snd]; [unfold buffer; lia | reflexivity].
Qed.

Lemma packed_bytes_kept_witness :
  let b : Buffer := buffer_at 1000 8 4 4 mem0 in
  let ks := [Put int32_t (repr_le 7); PutSpan 2 (Some (fun _ => 1)) 3;
             Put (TList TString) [hello; hello]] in
  ends_in true (session true ks b)
    (fun b' =>
       buffer (context_ (fst b)) <= buffer (context_ (fst b'))
       /\ forall a, a < buffer (context_ (fst b)) -> snd b' a = snd b a).
Proof.
  intros b ks. apply (packed_bytes_kept true ks b).
  - cbn. lia.
  - reflexivity.
Defined.

(** ** What the strategies write *)

Lemma std_copy_inside src len dst m i :
  0 <= i < len -> std_copy src len dst m (dst + i) = src i.
Proof.
  intros Hi. unfold std_copy.
  destruct (Z.leb_spec dst (dst + i)); [| lia].
  destruct (Z.ltb_spec (dst + i) (dst + len)); [| lia].
  cbn [andb]. f_equal. lia.
Qed.

Lemma std_copy_outside src len dst m a :
  a < dst \/ dst + len <= a -> std_copy src len dst m a = m a.
Proof.
  intros Ha. unfold std_copy.
  destruct (Z.leb_spec dst a); destruct (Z.ltb_spec a (dst + len)); cbn [andb];
    try reflexivity.
  lia.
Qed.

Lemma mul64_small a b : 0 <= a * b < 2 ^ 64 -> mul64 a b = a * b.
Proof. intros H. unfold mul64. apply to_size_t_small. exact H. Qed.

Lemma add64_small a b : 0 <= a + b < 2 ^ 64 -> add64 a b = a + b.
Proof. intros H. unfold add64. apply to_size_t_small. exact H. Qed.

(** X6. The pointer-and-length [put] on a cursor in bounds, with room for
    the rounded count field and [dataLen] elements of [sizeof_T] bytes:
    it returns success, the element count stands as a [size_t] at the
    write pointer, the bytes of the elements follow from the next aligned
    position on, every other byte of memory is as before, and the write
    pointer has moved past the count field by the rounded size of the
    elements. *)
Theorem span_put_layout (exc : bool) (sizeof_T dataLen : Z) (p_start_ : bytes)
    (c : Context) (m : Memory) :
  in_bounds c ->
  0 <= sizeof_T -> 0 <= dataLen ->
  round_up (alignment_ c) sizeof_size_t + sizeof_T * dataLen <= buffer_size c ->
  exists c' m',
    put_span exc sizeof_T (Some p_start_) dataLen (c, m) = Normal true (c', m')
    /\ buffer c' = buffer c + round_up (alignment_ c) sizeof_size_t
                   + getAlignedSize c (sizeof_T * dataLen)
    /\ (forall i, 0 <= i < sizeof_size_t -> m' (buffer c + i) = repr_le dataLen i)
    /\ (forall i, 0 <= i < sizeof_T * dataLen ->
          m' (buffer c + round_up (alignment_ c) sizeof_size_t + i) = p_start_ i)
    /\ (forall a, a < buffer c
                  \/ buffer c + sizeof_size_t <= a
                     < buffer c + round_up (alignment_ c) sizeof_size_t
                  \/ buffer c + round_up (alignment_ c) sizeof_size_t
                     + sizeof_T * dataLen <= a ->
          m' a = m a).
Proof.
  intros Hc HT Hlen Hroom.
  pose proof Hc as (Hq & Hm & Hb).
  rewrite buffer_size_in_bounds in Hroom by assumption.
  pose proof (round_up_bounds (alignment_ c) sizeof_size_t ltac:(lia)) as R.
  assert (R8 : 8 <= round_up (alignment_ c) sizeof_size_t)
    by (unfold sizeof_size_t in R at 1; lia).
  assert (Hp : 0 <= sizeof_T * dataLen) by (apply Z.mul_nonneg_nonneg; lia).
  unfold SIZE_MAX in Hb.
  unfold put_span, if_fits, getTypeSize_span. cbn [fst].
  rewrite buffer_size_in_bounds by assumption.
  rewrite (mul64_small sizeof_T dataLen) by lia.
  rewrite add64_small by (unfold sizeof_size_t; lia).
  destruct (Z.leb_spec (sizeof_size_t + sizeof_T * dataLen) (buf_size_ c - msg_size_ c));
    [| unfold sizeof_size_t in *; lia].
  unfold bind at 1 2. rewrite put_count_moved by (try assumption; lia).
  unfold bind at 1. unfold copy_to_buffer, copy_to. cbn [fst snd].
  rewrite advance_accepted;
    [| apply in_bounds_moved; [assumption | lia | lia] | lia
     | unfold moved; cbn [msg_size_ buf_size_]; lia].
  eexists. eexists. split; [reflexivity |].
  unfold buffer, moved. cbn [p_msg_ alignment_ buf_size_ msg_size_].
  split; [reflexivity |].
  split; [| split].
  - intros i Hi. rewrite std_copy_outside by (unfold sizeof_size_t in *; lia).
    apply std_copy_inside. exact Hi.
  - intros i Hi. rewrite <- Z.add_assoc.
    rewrite (Z.add_assoc (p_msg_ c)). apply std_copy_inside. exact Hi.
  - intros a Ha. rewrite !std_copy_outside; [reflexivity | lia | lia].
Qed.

Lemma span_put_layout_witness :
  let c := Context_new 1000 64 4 in
  let p : bytes := vector_data 2 [repr_le 1; repr_le 2; repr_le 3] in
  exists c' m',
    put_span true 2 (Some p) 3 (c, mem0) = Normal true (c', m')
    /\ buffer c' = buffer c + round_up (alignment_ c) sizeof_size_t
                   + getAlignedSize c (2 * 3)
    /\ (forall i, 0 <= i < sizeof_size_t -> m' (buffer c + i) = repr_le 3 i)
    /\ (forall i, 0 <= i < 2 * 3 ->
          m' (buffer c + round_up (alignment_ c) sizeof_size_t + i) = p i)
    /\ (forall a, a < buffer c
                  \/ buffer c + sizeof_size_t <= a
                     < buffer c + round_up (alignment_ c) sizeof_size_t
                  \/ buffer c + round_up (alignment_ c) sizeof_size_t + 2 * 3 <= a ->
          m' a = mem0 a).
Proof.
  intros c p. apply (span_put_layout true 2 3 p c mem0).
  - unfold in_bounds, SIZE_MAX. cbn. lia.
  - lia.
  - lia.
  - vm_compute. discriminate.
Defined.

Lemma c_str_terminator str : c_str str (size str) = 0.
Proof.
  unfold c_str, size. rewrite Nat2Z.id. apply nth_overflow. lia.
Qed.

Lemma put_chars_layout (exc : bool) (k : Z) (p_start_ : bytes) (c : Context) (m : Memory) :
  in_bounds c -> 0 <= k < 2 ^ 31 -> k <= buffer_size c ->
  put_chars exc k p_start_ (c, m)
  = Normal true ({| buf_size_ := buf_size_ c;
                    p_msg_ := p_msg_ c + getAlignedSize c k;
                    msg_size_ := add64 (msg_size_ c) (getAlignedSize c k);
                    alignment_ := alignment_ c |},
                 std_copy p_start_ k (buffer c) m).
Proof.
  intros Hc Hk Hroom. pose proof Hc as (Hq & Hm & Hb).
  unfold put_chars, if_fits. cbn [fst]. rewrite to_size_t_small by lia.
  rewrite buffer_size_in_bounds in * by assumption.
  destruct (Z.leb_spec k (buf_size_ c - msg_size_ c)); [| lia].
  destruct (Z.ltb_spec k 0); [lia |].
  unfold bind at 1 2. unfold copy_to_buffer, copy_to. cbn [fst snd].
  rewrite advance_accepted by (try assumption; cbn [msg_size_ buf_size_]; lia).
  reflexivity.
Qed.

(** X7. [put] of a [std::string] shorter than [INT_MAX] on a cursor in
    bounds that has room for its characters and a terminator: it returns
    success, the characters stand at the write pointer in order, a zero
    byte follows them, every other byte of memory is as before, and the
    write pointer has moved by the rounded size. *)
Theorem string_put_layout (exc : bool) (_str : list Z) (c : Context) (m : Memory) :
  in_bounds c ->
  size _str + 1 < 2 ^ 31 ->
  size _str + 1 <= buffer_size c ->
  exists c' m',
    put exc TString _str (c, m) = Normal true (c', m')
    /\ buffer c' = buffer c + getAlignedSize c (size _str + 1)
    /\ (forall i, 0 <= i < size _str ->
          m' (buffer c + i) = nth (Z.to_nat i) _str 0)
    /\ m' (buffer c + size _str) = 0
    /\ (forall a, a < buffer c \/ buffer c + size _str + 1 <= a -> m' a = m a).
Proof.
  intros Hc Hlen Hroom. pose proof (size_nonneg _str) as Hs.
  cbn [put]. unfold put_string, getTypeSize_string.
  rewrite add64_small by lia. rewrite to_int_small by lia.
  rewrite put_chars_layout by (try assumption; lia).
  eexists. eexists. split; [reflexivity |].
  unfold buffer. cbn [p_msg_]. split; [reflexivity |]. split; [| split].
  - intros i Hi. rewrite std_copy_inside by lia. reflexivity.
  - rewrite std_copy_inside by lia. apply c_str_terminator.
  - intros a Ha. apply std_copy_outside. lia.
Qed.

Lemma string_put_layout_witness :
  let c := Context_new 1000 64 4 in
  exists c' m',
    put true TString hello (c, mem0) = Normal true (c', m')
    /\ buffer c' = buffer c + getAlignedSize c (size hello + 1)
    /\ (forall i, 0 <= i < size hello ->
          m' (buffer c + i) = nth (Z.to_nat i) hello 0)
    /\ m' (buffer c + size hello) = 0
    /\ (forall a, a < buffer c \/ buffer c + size hello + 1 <= a -> m' a = mem0 a).
Proof.
  intros c. apply (string_put_layout true hello c mem0).
  - unfold in_bounds, SIZE_MAX. cbn. lia.
  - vm_compute. reflexivity.
  - vm_compute. discriminate.
Defined.

Lemma strlen_without_nul str :
  forallb (fun ch => negb (ch =? 0)) str = true -> strlen str = size str.
Proof.
  induction str as [| ch rest IH]; intros H.
  - reflexivity.
  - cbn [forallb] in H. apply andb_prop in H as (Hch & Hrest).
    cbn [strlen]. destruct (ch =? 0); [discriminate |].
    rewrite (IH Hrest). unfold size. cbn [length]. lia.
Qed.

(** X8. A [char *] to characters none of which is zero is sized and
    packed exactly as the [std::string] of these characters: the two
    specialisations report the same size and, from any state, end in the
    same outcome. *)
Theorem cstr_packs_as_string (exc : bool) (text : list Z) (s : State) :
  forallb (fun ch => negb (ch =? 0)) text = true ->
  getTypeSize_cstr text = getTypeSize_string text
  /\ put_cstr exc (Some text) s = put_string exc text s.
Proof.
  intros H. unfold put_cstr, put_string, getTypeSize_cstr, getTypeSize_string.
  rewrite (strlen_without_nul text H). split; reflexivity.
Qed.

Lemma cstr_packs_as_string_witness :
  let s : State := (Context_new 0 64 4, mem0) in
  getTypeSize_cstr hello = getTypeSize_string hello
  /\ put_cstr true (Some hello) s = put_string true hello s.
Proof.
  intros s. apply (cstr_packs_as_string true hello s). reflexivity.
Defined.

(** X9. [put] of a non-empty [std::vector] of scalars is the
    pointer-and-length [put] of its storage: for elements of [n] bytes
    whose total size a [size_t] holds, the two end in the same outcome from
    any state. *)
Theorem vector_packs_as_span (exc : bool) (n : Z) (_vec : list bytes) (s : State) :
  0 <= n -> 0 < size _vec -> size _vec * n < 2 ^ 64 ->
  put exc (TVector (TTrivial n)) _vec s
  = put_span exc n (Some (vector_data n _vec)) (size _vec) s.
Proof.
  intros Hn Hsz Hmax.
  assert (Hp : 0 <= size _vec * n) by (apply Z.mul_nonneg_nonneg; lia).
  cbn [put getTypeSize is_trivial sizeof value]. unfold if_nonempty, put_span.
  cbn [value].
  destruct (Z.ltb_spec 0 (size _vec)); [| lia].
  unfold copy_elements. cbn [is_trivial sizeof object_bytes].
  rewrite map_id.
  unfold getTypeSize_closed, getTypeSize_span.
  rewrite (mul64_small (size _vec) n) by lia.
  rewrite (mul64_small n (size _vec)) by lia.
  rewrite (Z.mul_comm n (size _vec)). reflexivity.
Qed.

Lemma vector_packs_as_span_witness :
  let v : list bytes := [repr_le 1; repr_le 2; repr_le 3] in
  let s : State := (Context_new 0 64 4, mem0) in
  put true (TVector (TTrivial 4)) v s
  = put_span true 4 (Some (vector_data 4 v)) (size v) s.
Proof.
  intros v s. apply (vector_packs_as_span true 4 v s).
  - lia.
  - reflexivity.
  - reflexivity.
Defined.

(** ** What [put] returns *)

Lemma if_fits_result n body s r s' :
  if_fits n body s = Normal r s' -> r = (n <=? buffer_size (fst s)).
Proof.
  unfold if_fits. destruct (n <=? buffer_size (fst s)).
  - unfold bind, ret. destruct (body s); intros H; inversion H. reflexivity.
  - intros H. inversion H. reflexivity.
Qed.

Lemma if_nonempty_result {A : Type} (c : list A) n body s r s' :
  if_nonempty c (if_fits n body) s = Normal r s' ->
  r = negb (size c <=? 0) && (n <=? buffer_size (fst s)).
Proof.
  unfold if_nonempty. rewrite Z.leb_antisym, negb_involutive.
  destruct (0 <? size c); cbn [andb].
  - apply if_fits_result.
  - intros H. inversion H. reflexivity.
Qed.

Lemma put_chars_result (exc : bool) n p_start_ s r s' :
  0 <= n < 2 ^ 31 ->
  put_chars exc (to_int n) p_start_ s = Normal r s' ->
  r = (n <=? buffer_size (fst s)).
Proof.
  intros Hn. rewrite to_int_small by exact Hn. unfold put_chars.
  rewrite to_size_t_small by lia. apply if_fits_result.
Qed.

Lemma getTypeSize_text_nonneg t v : is_text t = true -> 0 <= getTypeSize t v.
Proof.
  destruct t; try discriminate; intros _; cbn [getTypeSize];
    unfold getTypeSize_cstr, getTypeSize_string, add64; apply to_size_t_range.
Qed.

Lemma put_result (exc : bool) (t : ty) (v : value t) (s s' : State) (r : bool) :
  (is_text t = true -> getTypeSize t v < 2 ^ 31) ->
  put exc t v s = Normal r s' ->
  r = negb (is_empty t v) && (getTypeSize t v <=? buffer_size (fst s)).
Proof.
  intros Htext.
  destruct t; cbn [value] in v; cbn [put is_empty negb andb].
  - apply if_fits_result.
  - unfold put_cstr. apply put_chars_result.
    pose proof (getTypeSize_text_nonneg TCStr v eq_refl).
    specialize (Htext eq_refl). cbn [getTypeSize] in *. lia.
  - unfold put_string. apply put_chars_result.
    pose proof (getTypeSize_text_nonneg TString v eq_refl).
    specialize (Htext eq_refl). cbn [getTypeSize] in *. lia.
  - apply if_nonempty_result.
  - apply if_nonempty_result.
  - apply if_nonempty_result.
  - apply if_fits_result.
  - apply if_nonempty_result.
  - apply if_nonempty_result.
  - apply if_nonempty_result.
Qed.

(** X10. What [put] returns is decided before anything is written: whenever
    the call returns, and for a string shorter than [INT_MAX], the result
    is success exactly when the value is not an empty container and
    [getTypeSize] of it is at most [getBufferSize()]; the [put] of an
    element that finds no room inside a container does not change it. *)
Theorem put_returns_size_check (exc : bool) (t : ty) (v : value t)
    (b b' : Buffer) (r : bool) :
  (is_text t = true -> getTypeSize t v < 2 ^ 31) ->
  PackBuffer_put exc t v b = Normal r b' ->
  r = negb (is_empty t v) && (getTypeSize t v <=? getBufferSize (fst b)).
Proof.
  intros Htext. unfold PackBuffer_put, with_context, getBufferSize.
  destruct (put exc t v (context_ (fst b), snd b)) as [r0 s0 | s0 |] eqn:E;
    try discriminate.
  intros H. injection H as Hr _. subst r0.
  apply (put_result exc t v _ s0 r Htext E).
Qed.

Lemma put_returns_size_check_witness :
  let b : Buffer := (PackBuffer_new 0 64 4, mem0) in
  let b' : Buffer := buffer_at 0 64 4 8 (std_copy (c_str hello) 6 0 mem0) in
  PackBuffer_put true TString hello b = Normal true b'
  /\ true = negb (is_empty TString hello)
            && (getTypeSize TString hello <=? getBufferSize (fst b)).
Proof.
  intros b b'.
  assert (E : PackBuffer_put true TString hello b = Normal true b') by reflexivity.
  split; [exact E |].
  apply (put_returns_size_check true TString hello b b' true).
  - intros _. vm_compute. reflexivity.
  - exact E.
Defined.

(** ** A call writes between the write pointer before and after it *)

Section Between.

Variable exc : bool.
Variables q base B : Z.
Variable m0 : Memory.
Variable p : Z.
Hypothesis q_pos : 0 < q.
Hypothesis q_count : (q | sizeof_size_t).
Hypothesis q_capacity : (q | B).
Hypothesis B_small : 0 <= B < 2 ^ 32.

Lemma small_in_range : 0 <= B <= SIZE_MAX.
Proof. unfold SIZE_MAX. lia. Qed.

Lemma between_weaken k k' s :
  k' <= k -> between q base B m0 p k s -> between q base B m0 p k' s.
Proof.
  intros Hk (Hr & H). split; [| exact H].
  apply room_weaken with (k := k); assumption.
Qed.

Lemma between_0 k s :
  between q base B m0 p k s -> between q base B m0 p 0 s.
Proof.
  intros (Hr & H). split; [| exact H]. apply inside_room. apply (room_inside _ _ _ _ _ _ Hr).
Qed.

(** The bytes are copied and the cursor moved past them, the padding
    included. *)
Lemma write_between k src len :
  0 <= len <= k ->
  returns (between q base B m0 p k)
          (copy_to_buffer src len ;; advance exc len)
          (between q base B m0 p (k - round_up q len)).
Proof.
  intros Hlen [c m] (((Ha & HB & Hd & Hm & Hp & Hout) & Hr) & Hpp & Hmem).
  cbn [fst snd] in *.
  pose proof (q_range q q_pos q_count) as Q.
  assert (Hk : (q | B - msg_size_ c)) by (apply Z.divide_sub_r; assumption).
  pose proof (fits_rounded q q_pos len (B - msg_size_ c) ltac:(lia) Hk) as Hfit.
  pose proof (round_up_bounds q len q_pos) as Rb.
  assert (G : getAlignedSize c len = round_up q len).
  { rewrite <- Ha. apply getAlignedSize_round_up; rewrite ?Ha; lia. }
  unfold bind, copy_to_buffer, copy_to, advance, operator_add_assign. cbn [fst snd].
  rewrite HB, G. unfold add64. rewrite (to_size_t_small (msg_size_ c + len)) by lia.
  destruct (Z.ltb_spec B (msg_size_ c + len)); [lia |]. rewrite andb_false_r.
  rewrite to_size_t_small by lia.
  eexists tt, (_, _). split; [reflexivity |].
  split; [split; [repeat split |] | split];
    cbn [fst snd alignment_ buf_size_ msg_size_ p_msg_]; try assumption; try lia.
  - apply Z.divide_add_r; [assumption | apply round_up_divide].
  - intros a Ha'. rewrite std_copy_outside by (unfold buffer; lia).
    apply Hout. exact Ha'.
  - intros a Ha'. rewrite std_copy_outside by (unfold buffer; lia).
    apply Hmem. lia.
Qed.

Lemma between_if_fits n body :
  returns (between q base B m0 p n) body (between q base B m0 p 0) ->
  returns (between q base B m0 p 0) (if_fits n body) (between q base B m0 p 0).
Proof.
  intros Hbody s Hs. destruct Hs as (Hr & Hs). pose proof (room_inside _ _ _ _ _ _ Hr) as Hi.
  unfold if_fits. rewrite (buffer_size_inside q base B m0 small_in_range s Hi).
  destruct (Z.leb_spec n (B - msg_size_ (fst s))).
  - assert (Hn : between q base B m0 p n s).
    { split; [split; [exact Hi |] | exact Hs]. destruct Hi as (_ & HB & _). lia. }
    apply (returns_bind (between q base B m0 p n) (between q base B m0 p 0)
                        (between q base B m0 p 0) body (fun _ => ret true)).
    + exact Hbody.
    + intros _. apply returns_ret. auto.
    + exact Hn.
  - exists false, s. split; [reflexivity |]. split; assumption.
Qed.

Lemma between_write k src len :
  0 <= len <= k ->
  returns (between q base B m0 p k)
          (copy_to_buffer src len ;; advance exc len)
          (between q base B m0 p 0).
Proof.
  intros Hlen.
  apply returns_weaken with (P := between q base B m0 p k)
                            (Q := between q base B m0 p (k - round_up q len)).
  - auto.
  - intros s. apply between_0.
  - apply write_between. exact Hlen.
Qed.

Lemma put_trivial_between n t :
  0 <= n ->
  returns (between q base B m0 p 0) (put_trivial exc n t) (between q base B m0 p 0).
Proof.
  intros Hn. unfold put_trivial, getTypeSize_trivial. apply between_if_fits.
  apply between_write. lia.
Qed.

Lemma put_count_between k n :
  returns (between q base B m0 p k) (put_count exc n)
          (between q base B m0 p (k - sizeof_size_t)).
Proof.
  intros s Hs. pose proof Hs as (Hr & Hrest).
  pose proof (room_inside _ _ _ _ _ _ Hr) as Hi.
  unfold put_count, put_trivial, getTypeSize_trivial, if_fits, bind at 1.
  rewrite (buffer_size_inside q base B m0 small_in_range s Hi).
  destruct (Z.leb_spec sizeof_size_t (B - msg_size_ (fst s))) as [Hfit | Hno].
  - set (r := B - msg_size_ (fst s)) in *.
    assert (Hb : between q base B m0 p r s).
    { split; [split; [exact Hi |] | exact Hrest]. destruct Hi as (_ & HB & _).
      subst r. lia. }
    assert (Hk : k <= r).
    { destruct Hr as ((_ & HB & _) & Hk). subst r. lia. }
    assert (F : round_up q sizeof_size_t = sizeof_size_t)
      by (apply round_up_fixed; [exact q_pos | exact q_count]).
    assert (R : returns (between q base B m0 p r)
                  (copy_to_buffer (repr_le n) sizeof_size_t ;; advance exc sizeof_size_t)
                  (between q base B m0 p (k - sizeof_size_t))).
    { apply returns_weaken with (P := between q base B m0 p r)
                  (Q := between q base B m0 p (r - round_up q sizeof_size_t)).
      - auto.
      - intros s'. apply between_weaken. rewrite F. lia.
      - apply write_between. unfold sizeof_size_t in *. lia. }
    destruct (R s Hb) as ([] & s' & E & Hs').
    unfold bind at 1. rewrite E. exists tt, s'. split; [reflexivity | exact Hs'].
  - exists tt, s. split; [reflexivity |].
    apply between_weaken with (k := k); [unfold sizeof_size_t; lia | exact Hs].
Qed.

Lemma counted_bytes_between n src len :
  0 <= len ->
  returns (between q base B m0 p (sizeof_size_t + len))
          (put_count exc n ;; copy_to_buffer src len ;; advance exc len)
          (between q base B m0 p 0).
Proof.
  intros Hlen.
  apply returns_bind with (R := between q base B m0 p len).
  - apply returns_weaken with (P := between q base B m0 p (sizeof_size_t + len))
                  (Q := between q base B m0 p (sizeof_size_t + len - sizeof_size_t)).
    + auto.
    + intros s. apply between_weaken. lia.
    + apply put_count_between.
  - intros _. apply between_write. lia.
Qed.

Lemma put_span_between sizeof_T _buffer dataLen :
  0 <= sizeof_T -> 0 <= dataLen ->
  sizeof_size_t + sizeof_T * dataLen <= SIZE_MAX ->
  returns (between q base B m0 p 0) (put_span exc sizeof_T _buffer dataLen)
          (between q base B m0 p 0).
Proof.
  intros HT Hlen Hmax. unfold put_span. destruct _buffer as [p_start_ |].
  - assert (Hp : 0 <= sizeof_T * dataLen) by (apply Z.mul_nonneg_nonneg; lia).
    unfold SIZE_MAX, sizeof_size_t in Hmax.
    unfold getTypeSize_span. rewrite (mul64_small sizeof_T dataLen) by lia.
    rewrite add64_small by (unfold sizeof_size_t; lia).
    apply between_if_fits. apply counted_bytes_between. exact Hp.
  - apply returns_ret. auto.
Qed.

Lemma put_chars_between kCStringLen p_start_ :
  0 <= kCStringLen < 2 ^ 31 ->
  returns (between q base B m0 p 0) (put_chars exc kCStringLen p_start_)
          (between q base B m0 p 0).
Proof.
  intros Hk. unfold put_chars. rewrite to_size_t_small by lia.
  destruct (Z.ltb_spec kCStringLen 0); [lia |].
  apply between_if_fits. apply between_write. lia.
Qed.

Lemma put_cstr_between str :
  (match str with Some text => strlen text + 1 <? 2 ^ 31 | None => true end) = true ->
  returns (between q base B m0 p 0) (put_cstr exc str) (between q base B m0 p 0).
Proof.
  intros H. unfold put_cstr. destruct str as [text |].
  - unfold getTypeSize_cstr.
    destruct (text_length (strlen text) (strlen_nonneg text) H) as (E & R).
    rewrite E. apply put_chars_between. exact R.
  - apply returns_ret. auto.
Qed.

Lemma put_string_between _str :
  (size _str + 1 <? 2 ^ 31) = true ->
  returns (between q base B m0 p 0) (put_string exc _str) (between q base B m0 p 0).
Proof.
  intros H. unfold put_string, getTypeSize_string.
  destruct (text_length (size _str) (size_nonneg _str) H) as (E & R).
  rewrite E. apply put_chars_between. exact R.
Qed.

Lemma sequence_between {A : Type} (n : Z) (put_elem : A -> M bool) (c : list A) :
  (forall x, In x c ->
     returns (between q base B m0 p 0) (put_elem x) (between q base B m0 p 0)) ->
  returns (between q base B m0 p 0)
          (if_nonempty c (if_fits n (put_count exc (size c) ;; put_each put_elem c)))
          (between q base B m0 p 0).
Proof.
  intros H. apply returns_if_nonempty. apply between_if_fits.
  apply returns_bind with (R := between q base B m0 p 0).
  - apply returns_weaken with (P := between q base B m0 p n)
                              (Q := between q base B m0 p (n - sizeof_size_t)).
    + auto.
    + intros s. apply between_0.
    + apply put_count_between.
  - intros _. apply returns_put_each. exact H.
Qed.

Lemma put_between (t : ty) (v : value t) :
  plausible t v = true ->
  returns (between q base B m0 p 0) (put exc t v) (between q base B m0 p 0).
Proof.
  induction t as [n | | | T IH | T IH | K IH | K IHK V IHV | K IHK V IHV | K IH
                  | K IHK V IHV]; cbn [value] in v; cbn [plausible put]; intros Hv.
  - apply put_trivial_between. apply Z.leb_le. exact Hv.
  - apply put_cstr_between. exact Hv.
  - apply put_string_between. exact Hv.
  - apply andb_prop in Hv as (Hv & Hmax). apply andb_prop in Hv as (Htriv & HT).
    apply Z.leb_le in HT, Hmax.
    pose proof (size_nonneg v) as Hsz.
    assert (Hp : 0 <= size v * sizeof T) by (apply Z.mul_nonneg_nonneg; lia).
    unfold SIZE_MAX, sizeof_size_t in Hmax.
    apply returns_if_nonempty. cbn [getTypeSize]. rewrite Htriv.
    rewrite getTypeSize_closed_unfold.
    replace (sizeof T * size v) with (size v * sizeof T) by lia.
    rewrite to_size_t_small by (unfold sizeof_size_t; lia).
    unfold copy_elements. rewrite Htriv.
    rewrite (mul64_small (size v) (sizeof T)) by lia.
    apply between_if_fits. apply counted_bytes_between. exact Hp.
  - apply sequence_between. intros x Hx. apply IH.
    rewrite forallb_forall in Hv. apply Hv. exact Hx.
  - apply sequence_between. intros x Hx. apply IH.
    rewrite forallb_forall in Hv. apply Hv. exact Hx.
  - apply andb_prop in Hv as (HK & HV). apply between_if_fits.
    apply returns_weaken with (P := between q base B m0 p 0)
                              (Q := between q base B m0 p 0);
      [intros s; apply between_0 | auto |].
    apply returns_bind with (R := between q base B m0 p 0); [apply IHK; exact HK |].
    intros _.
    apply returns_bind with (R := between q base B m0 p 0); [apply IHV; exact HV |].
    intros _. apply returns_ret. auto.
  - apply (sequence_between _ (fun ve : value K * value V =>
                                 put exc K (fst ve) ;; put exc V (snd ve))).
    intros x Hx. rewrite forallb_forall in Hv. specialize (Hv x Hx).
    apply andb_prop in Hv as (HK & HV).
    apply returns_bind with (R := between q base B m0 p 0); [apply IHK; exact HK |].
    intros _. apply IHV. exact HV.
  - apply sequence_between. intros x Hx. apply IH.
    rewrite forallb_forall in Hv. apply Hv. exact Hx.
  - apply (sequence_between _ (fun ve : value K * value V =>
                                 put exc K (fst ve) ;; put exc V (snd ve))).
    intros x Hx. rewrite forallb_forall in Hv. specialize (Hv x Hx).
    apply andb_prop in Hv as (HK & HV).
    apply returns_bind with (R := between q base B m0 p 0); [apply IHK; exact HK |].
    intros _. apply IHV. exact HV.
Qed.

Lemma perform_between (k : call) (b : Buffer) :
  plausible_call k = true -> is_reset k = false ->
  between q base B m0 p 0 (context_ (fst b), snd b) ->
  exists b', perform exc k b = Normal tt b'
             /\ p_buf_ (fst b') = p_buf_ (fst b)
             /\ between q base B m0 p 0 (context_ (fst b'), snd b').
Proof.
  intros Hk Hr Hb.
  assert (W : forall f : M bool,
             returns (between q base B m0 p 0) f (between q base B m0 p 0) ->
             exists r b', with_context f b = Normal r b'
                          /\ p_buf_ (fst b') = p_buf_ (fst b)
                          /\ between q base B m0 p 0 (context_ (fst b'), snd b')).
  { intros f Hf. destruct (Hf _ Hb) as (r & [c' m'] & E & H').
    unfold with_context. rewrite E. eexists r, (_, _). split; [reflexivity |].
    split; [reflexivity | exact H']. }
  destruct k as [t v | str | sizeof_T _buffer dataLen |]; try discriminate;
    cbn [plausible_call perform] in *.
  - unfold operator_shl, PackBuffer_put.
    destruct (W _ (put_between t v Hk)) as (r & b' & E & H').
    rewrite E. exists b'. split; [reflexivity | exact H'].
  - unfold PackBuffer_put_cstr.
    destruct (W _ (put_cstr_between str Hk)) as (r & b' & E & H').
    rewrite E. exists b'. split; [reflexivity | exact H'].
  - apply andb_prop in Hk as (Hk & Hmax). apply andb_prop in Hk as (HT & Hlen).
    apply Z.leb_le in HT, Hlen, Hmax.
    unfold PackBuffer_put_span.
    destruct (W _ (put_span_between sizeof_T _buffer dataLen HT Hlen Hmax))
      as (r & b' & E & H').
    rewrite E. exists b'. split; [reflexivity | exact H'].
Qed.

End Between.

(** X11. A [put] writes between the write pointer before it and the write
    pointer after it.  On a buffer of less than 2^32 bytes whose quantum
    divides [sizeof(size_t)], the capacity and the offset, every [put],
    [operator <<] and pointer-and-length [put] with plausible arguments
    returns, keeps the offset within the capacity, moves the write pointer
    forward by as much as the offset, and leaves every byte below the old
    write pointer and every byte from the new write pointer on as it
    was. *)
Theorem put_writes_between (exc : bool) (k : call) (_pMsg : Z) (c : Context)
    (m : Memory) :
  0 < alignment_ c ->
  (alignment_ c | sizeof_size_t) ->
  (alignment_ c | buf_size_ c) ->
  (alignment_ c | msg_size_ c) ->
  0 <= msg_size_ c <= buf_size_ c ->
  buf_size_ c < 2 ^ 32 ->
  plausible_call k = true ->
  is_reset k = false ->
  exists b',
    perform exc k ({| p_buf_ := _pMsg; context_ := c |}, m) = Normal tt b'
    /\ getData (fst b') = _pMsg
    /\ buffer c <= buffer (context_ (fst b'))
    /\ buffer (context_ (fst b')) - buffer c = getDataSize (fst b') - msg_size_ c
    /\ getDataSize (fst b') <= buf_size_ c
    /\ forall a, a < buffer c \/ buffer (context_ (fst b')) <= a -> snd b' a = m a.
Proof.
  intros Hq H8 HB Hd Hm Hsmall Hk Hr.
  destruct (perform_between exc (alignment_ c) (p_msg_ c - msg_size_ c) (buf_size_ c)
              m (p_msg_ c) Hq H8 HB ltac:(lia) k
              ({| p_buf_ := _pMsg; context_ := c |}, m) Hk Hr)
    as (b' & E & Hp & ((Hi & _) & Hpp & Hmem)).
  { split; [split; [repeat split |] | split]; cbn [fst snd context_];
      try assumption; try reflexivity; try lia. }
  exists b'. split; [exact E |].
  destruct Hi as (Ha' & HB' & Hd' & Hm' & Hp' & Hout'). cbn [fst snd p_buf_] in *.
  unfold getData, getDataSize, buffer.
  repeat split; try assumption; try lia.
Qed.

Lemma put_writes_between_witness :
  let c := {| buf_size_ := 64; p_msg_ := 1008; msg_size_ := 8; alignment_ := 4 |} in
  exists b',
    perform true (Put (TMap TString int32_t) ages)
            ({| p_buf_ := 1000; context_ := c |}, mem0) = Normal tt b'
    /\ getData (fst b') = 1000
    /\ buffer c <= buffer (context_ (fst b'))
    /\ buffer (context_ (fst b')) - buffer c = getDataSize (fst b') - msg_size_ c
    /\ getDataSize (fst b') <= buf_size_ c
    /\ forall a, a < buffer c \/ buffer (context_ (fst b')) <= a -> snd b' a = mem0 a.
Proof.
  intros c. apply (put_writes_between true (Put (TMap TString int32_t) ages) 1000 c mem0).
  - cbn. lia.
  - exists 2. reflexivity.
  - exists 16. reflexivity.
  - exists 2. reflexivity.
  - cbn. lia.
  - cbn. lia.
  - reflexivity.
  - reflexivity.
Defined.

(** ** The layout of a list of scalars *)

Lemma size_cons {A : Type} (x : A) (l : list A) : size (x :: l) = 1 + size l.
Proof. unfold size. cbn [length]. lia. Qed.

(** Scalars packed one after the other stand at a stride of the rounded
    scalar size; the padding after each keeps what memory held. *)
Lemma put_each_scalars (exc : bool) (n : Z) (l : list bytes) :
  forall (c : Context) (m : Memory),
  in_bounds c -> 0 <= n ->
  round_up (alignment_ c) n < 2 ^ 32 ->
  msg_size_ c + size l * round_up (alignment_ c) n <= buf_size_ c ->
  exists m',
    put_each (put_trivial exc n) l (c, m)
    = Normal tt (moved c (size l * round_up (alignment_ c) n), m')
    /\ (forall j i, 0 <= j < size l -> 0 <= i < round_up (alignment_ c) n ->
          m' (buffer c + j * round_up (alignment_ c) n + i)
          = if i <? n then nth (Z.to_nat j) l (fun _ => 0) i
            else m (buffer c + j * round_up (alignment_ c) n + i))
    /\ (forall a, a < buffer c \/ buffer c + size l * round_up (alignment_ c) n <= a ->
          m' a = m a).
Proof.
  induction l as [| x rest IH]; intros c m Hc Hn Hr Hroom.
  - exists m. cbn [put_each]. change (size (@nil bytes)) with 0.
    rewrite Z.mul_0_l, moved_0. split; [reflexivity |].
    split; [intros j i Hj; lia | reflexivity].
  - pose proof Hc as (Hq & Hm & Hb).
    pose proof (round_up_bounds (alignment_ c) n ltac:(lia)) as Rb.
    pose proof (size_nonneg rest) as Hs.
    rewrite size_cons in *.
    set (R := round_up (alignment_ c) n) in *.
    assert (Hprod : 0 <= size rest * R) by (apply Z.mul_nonneg_nonneg; lia).
    cbn [put_each]. unfold bind at 1.
    rewrite put_trivial_moved by (try assumption; fold R; lia). fold R.
    destruct (IH (moved c R) (std_copy x n (buffer c) m))
      as (m' & E & Hlay & Hframe).
    { apply in_bounds_moved; [assumption | lia | lia]. }
    { exact Hn. }
    { exact Hr. }
    { cbn [moved alignment_ msg_size_ buf_size_]. fold R. lia. }
    cbn [moved alignment_] in E, Hlay, Hframe. fold R in E, Hlay, Hframe.
    exists m'. split; [| split].
    + rewrite E. rewrite moved_moved. f_equal. f_equal. f_equal. lia.
    + intros j i Hj Hi. unfold buffer in *. cbn [moved p_msg_] in Hlay, Hframe.
      destruct (Z.eq_dec j 0) as [-> | Hj0].
      * rewrite Hframe by lia. change (Z.to_nat 0) with 0%nat. cbn [nth].
        rewrite Z.mul_0_l, Z.add_0_r.
        destruct (Z.ltb_spec i n).
        -- apply std_copy_inside. lia.
        -- apply std_copy_outside. lia.
      * replace (p_msg_ c + j * R + i) with (p_msg_ c + R + (j - 1) * R + i) by lia.
        rewrite Hlay by lia.
        replace (Z.to_nat j) with (S (Z.to_nat (j - 1))) by lia. cbn [nth].
        destruct (Z.ltb_spec i n); [reflexivity |].
        apply std_copy_outside. right.
        assert (0 <= (j - 1) * R) by (apply Z.mul_nonneg_nonneg; lia). lia.
    + intros a Ha. unfold buffer in *. cbn [moved p_msg_] in Hframe.
      rewrite Hframe by lia. apply std_copy_outside. lia.
Qed.

(** X12. [put] of a non-empty [std::list] of scalars of [n] bytes on a
    cursor in bounds, with room for the rounded count field and every
    rounded element: it returns success; the element count stands as a
    [size_t] at the write pointer; element [j] stands at the next aligned
    position plus [j] times the rounded scalar size, each element padded
    on its own; padding and every byte outside what the cursor moved over
    keep what memory held. *)
Theorem list_put_layout (exc : bool) (n : Z) (_lst : list bytes)
    (c : Context) (m : Memory) :
  let R8 := round_up (alignment_ c) sizeof_size_t in
  let R := round_up (alignment_ c) n in
  in_bounds c ->
  0 <= n -> 0 < size _lst ->
  R < 2 ^ 32 ->
  R8 + size _lst * R <= buffer_size c ->
  exists m',
    put exc (TList (TTrivial n)) _lst (c, m)
    = Normal true (moved c (R8 + size _lst * R), m')
    /\ (forall i, 0 <= i < sizeof_size_t ->
          m' (buffer c + i) = repr_le (size _lst) i)
    /\ (forall j i, 0 <= j < size _lst -> 0 <= i < n ->
          m' (buffer c + R8 + j * R + i) = nth (Z.to_nat j) _lst (fun _ => 0) i)
    /\ (forall j i, 0 <= j < size _lst -> n <= i < R ->
          m' (buffer c + R8 + j * R + i) = m (buffer c + R8 + j * R + i))
    /\ (forall a, a < buffer c
                  \/ buffer c + sizeof_size_t <= a < buffer c + R8
                  \/ buffer c + R8 + size _lst * R <= a ->
          m' a = m a).
Proof.
  intros R8 R Hc Hn Hsz Hr Hroom.
  pose proof Hc as (Hq & Hm & Hb).
  rewrite buffer_size_in_bounds in Hroom by assumption.
  pose proof (round_up_bounds (alignment_ c) sizeof_size_t ltac:(lia)) as B8.
  pose proof (round_up_bounds (alignment_ c) n ltac:(lia)) as Bn.
  fold R8 in B8. fold R in Bn.
  assert (H8 : 8 <= R8) by (unfold sizeof_size_t in B8 at 1; lia).
  assert (Hprod : 0 <= size _lst * R) by (apply Z.mul_nonneg_nonneg; lia).
  assert (Hle : n * size _lst <= size _lst * R) by nia.
  assert (Hnn : 0 <= n * size _lst) by (apply Z.mul_nonneg_nonneg; lia).
  unfold SIZE_MAX in Hb.
  cbn [put getTypeSize is_trivial sizeof value]. unfold if_nonempty. cbn [value].
  destruct (Z.ltb_spec 0 (size _lst)); [| lia].
  unfold if_fits. cbn [fst]. rewrite buffer_size_in_bounds by assumption.
  rewrite getTypeSize_closed_unfold.
  rewrite to_size_t_small by (unfold sizeof_size_t; lia).
  destruct (Z.leb_spec (sizeof_size_t + n * size _lst) (buf_size_ c - msg_size_ c));
    [| unfold sizeof_size_t in *; lia].
  unfold bind at 1 2. rewrite put_count_moved by (try assumption; fold R8; lia).
  fold R8.
  destruct (put_each_scalars exc n _lst (moved c R8)
              (std_copy (repr_le (size _lst)) sizeof_size_t (buffer c) m))
    as (m' & E & Hlay & Hframe).
  { apply in_bounds_moved; [assumption | lia | lia]. }
  { exact Hn. }
  { exact Hr. }
  { cbn [moved alignment_ msg_size_ buf_size_]. fold R. lia. }
  cbn [moved alignment_] in E, Hlay, Hframe. fold R in E, Hlay, Hframe.
  cbn [value] in E. rewrite E. rewrite moved_moved.
  exists m'. split; [reflexivity |].
  unfold buffer in *. cbn [moved p_msg_] in Hlay, Hframe.
  split; [| split; [| split]].
  - intros i Hi. rewrite Hframe by (unfold sizeof_size_t in *; lia).
    apply std_copy_inside. exact Hi.
  - intros j i Hj Hi. rewrite Hlay by lia.
    destruct (Z.ltb_spec i n); [reflexivity | lia].
  - intros j i Hj Hi. rewrite Hlay by lia.
    destruct (Z.ltb_spec i n); [lia |].
    apply std_copy_outside. right.
    assert (0 <= j * R) by (apply Z.mul_nonneg_nonneg; lia).
    unfold sizeof_size_t in *. lia.
  - intros a Ha. rewrite Hframe by lia. apply std_copy_outside. lia.
Qed.

Lemma list_put_layout_witness :
  let c := Context_new 1000 64 4 in
  let l : list bytes := [repr_le 1; repr_le 2; repr_le 3] in
  let R8 := round_up (alignment_ c) sizeof_size_t in
  let R := round_up (alignment_ c) 2 in
  exists m',
    put true (TList (TTrivial 2)) l (c, mem0)
    = Normal true (moved c (R8 + size l * R), m')
    /\ (forall i, 0 <= i < sizeof_size_t -> m' (buffer c + i) = repr_le (size l) i)
    /\ (forall j i, 0 <= j < size l -> 0 <= i < 2 ->
          m' (buffer c + R8 + j * R + i) = nth (Z.to_nat j) l (fun _ => 0) i)
    /\ (forall j i, 0 <= j < size l -> 2 <= i < R ->
          m' (buffer c + R8 + j * R + i) = mem0 (buffer c + R8 + j * R + i))
    /\ (forall a, a < buffer c
                  \/ buffer c + sizeof_size_t <= a < buffer c + R8
                  \/ buffer c + R8 + size l * R <= a ->
          m' a = mem0 a).
Proof.
  intros c l. apply (list_put_layout true 2 l c mem0).
  - unfold in_bounds, SIZE_MAX. cbn. lia.
  - lia.
  - reflexivity.
  - vm_compute. reflexivity.
  - vm_compute. discriminate.
Defined.
